(** * paddle/parameter/Argument.h

    A shallow embedding of [struct Argument], the batch descriptor exchanged
    between layers, together with the properties of its inline members:
    copy and assignment, the readiness counters, the size queries and
    [sumCosts].  The members that the header only declares ([concat],
    [splitByDataId]) are modelled from their documented behaviour and are
    marked as such. *)

From Stdlib Require Import ZArith List Lia Bool Sorted.
From stdpp Require Import base option numbers list relations gmap.

Local Open Scope Z_scope.

(** ** Machine integers

    [int] is 32 bits, [int64_t] and [size_t] are 64 bits.  Values are kept
    in [Z]; every arithmetic result is brought back into the range of its
    type. *)

Definition INT_MAX : Z := 2 ^ 31 - 1.
Definition INT64_MAX : Z := 2 ^ 63 - 1.

Definition wrap_int (z : Z) : Z := (z + 2 ^ 31) mod 2 ^ 32 - 2 ^ 31.
Definition wrap_size_t (z : Z) : Z := z mod 2 ^ 64.
Definition to_int64 (z : Z) : Z := (z + 2 ^ 63) mod 2 ^ 64 - 2 ^ 63.

Definition in_int (z : Z) : Prop := - 2 ^ 31 <= z <= INT_MAX.
Definition in_int64 (z : Z) : Prop := - 2 ^ 63 <= z <= INT64_MAX.

(** ** Results of a member call

    A call returns, or suspends the calling thread on a condition variable,
    or fails fast with one of the errors of the error taxonomy, or
    dereferences a handle that owns no object, which is undefined
    behaviour in C++. *)

Inductive error : Type :=
| InvariantViolation
| OutOfRange
| MissingField.

Inductive outcome (A : Type) : Type :=
| Ok (a : A)
| Blocked
| Failed (e : error)
| Undefined.
Arguments Ok {A} a.
Arguments Blocked {A}.
Arguments Failed {A} e.
Arguments Undefined {A}.

Definition obind {A B} (f : A -> outcome B) (o : outcome A) : outcome B :=
  match o with
  | Ok a => f a
  | Blocked => Blocked
  | Failed e => Failed e
  | Undefined => Undefined
  end.

#[global] Instance outcome_bind : MBind outcome := fun A B f o => obind f o.

(** ** Storage handles

    [std::shared_ptr<T>] is an optional address into a store of [T]
    objects: [None] is [nullptr], and two handles are the same reference
    exactly when their addresses are equal. *)

Definition loc := positive.
Definition shared_ptr := option loc.

Definition present (p : shared_ptr) : bool :=
  match p with Some _ => true | None => false end.

Definition deref {T} (m : gmap loc T) (p : shared_ptr) : outcome T :=
  match p with
  | None => Undefined
  | Some l => match m !! l with Some o => Ok o | None => Undefined end
  end.

Section Descriptor.

(** [real] is the element type of dense matrices (a typedef of
    paddle/utils, not part of this header). *)
Context {real : Type}.

(** Modelled from the spec: the dense matrix of paddle/math/Matrix.h, a
    storage collaborator that provides its row count, its column count and
    its rows. *)
Record Matrix := {
  m_width : Z;
  m_rows : list (list real)
}.

Definition Matrix_getHeight (m : Matrix) : Z := Z.of_nat (length (m_rows m)).

(** Modelled from the spec: the integer vector of paddle/math/Vector.h. *)
Record IVector := { iv_data : list Z }.

Definition IVector_getSize (v : IVector) : Z := Z.of_nat (length (iv_data v)).

(** Modelled from the spec: the host/device mirrored integer vector of
    paddle/math/Vector.h.  It holds one logical content; [cg_on_host] and
    [cg_on_device] say which of the two mirrors currently hold it. *)
Record ICpuGpuVector := {
  cg_data : list Z;
  cg_on_host : bool;
  cg_on_device : bool
}.

Definition ICpuGpuVector_getSize (v : ICpuGpuVector) : Z :=
  Z.of_nat (length (cg_data v)).

(** Where a data pointer returned by [getData] lives. *)
Inductive residence := Host | Device.

(** [getData(useGpu)]: the content on the requested side, copied there
    first when that mirror does not hold it. *)
Definition ICpuGpuVector_getData (useGpu : bool) (v : ICpuGpuVector)
  : residence * list Z * ICpuGpuVector :=
  if useGpu
  then (Device, cg_data v,
        {| cg_data := cg_data v; cg_on_host := cg_on_host v;
           cg_on_device := true |})
  else (Host, cg_data v,
        {| cg_data := cg_data v; cg_on_host := true;
           cg_on_device := cg_on_device v |}).

(** The store of all storage objects, one map per object type. *)
Record Store := {
  matrices : gmap loc Matrix;
  ivectors : gmap loc IVector;
  cgvectors : gmap loc ICpuGpuVector;
  svectors : gmap loc (list String.string);      (* std::vector<std::string> *)
  uvectors : gmap loc (list Z)                   (* std::vector<void*> *)
}.

(** ** struct Argument *)

Record Argument := {
  in_ : shared_ptr;                        (* MatrixPtr in *)
  value : shared_ptr;                      (* MatrixPtr value *)
  ids : shared_ptr;                        (* IVectorPtr ids *)
  grad : shared_ptr;                       (* MatrixPtr grad *)
  strs : shared_ptr;                       (* SVectorPtr strs *)
  frameHeight : Z;                         (* size_t *)
  frameWidth : Z;                          (* size_t *)
  sequenceStartPositions : shared_ptr;     (* ICpuGpuVectorPtr *)
  subSequenceStartPositions : shared_ptr;  (* ICpuGpuVectorPtr *)
  cpuSequenceDims : shared_ptr;            (* IVectorPtr *)
  udp : shared_ptr;                        (* UserDefinedVectorPtr *)
  deviceId : Z;                            (* int *)
  allCount : Z;                            (* int *)
  valueCount : Z;                          (* mutable int *)
  gradCount : Z;                           (* mutable int *)
  dataId : Z                               (* int *)
}.

(** The default constructor. *)
Definition Argument_default : Argument := {|
  in_ := None; value := None; ids := None; grad := None; strs := None;
  frameHeight := 0; frameWidth := 0;
  sequenceStartPositions := None; subSequenceStartPositions := None;
  cpuSequenceDims := None; udp := None;
  deviceId := -1; allCount := 0; valueCount := 0; gradCount := 0;
  dataId := 0
|}.

Definition set_valueCount (n : Z) (a : Argument) : Argument := {|
  in_ := in_ a; value := value a; ids := ids a; grad := grad a;
  strs := strs a; frameHeight := frameHeight a; frameWidth := frameWidth a;
  sequenceStartPositions := sequenceStartPositions a;
  subSequenceStartPositions := subSequenceStartPositions a;
  cpuSequenceDims := cpuSequenceDims a; udp := udp a;
  deviceId := deviceId a; allCount := allCount a;
  valueCount := n; gradCount := gradCount a; dataId := dataId a
|}.

Definition set_gradCount (n : Z) (a : Argument) : Argument := {|
  in_ := in_ a; value := value a; ids := ids a; grad := grad a;
  strs := strs a; frameHeight := frameHeight a; frameWidth := frameWidth a;
  sequenceStartPositions := sequenceStartPositions a;
  subSequenceStartPositions := subSequenceStartPositions a;
  cpuSequenceDims := cpuSequenceDims a; udp := udp a;
  deviceId := deviceId a; allCount := allCount a;
  valueCount := valueCount a; gradCount := n; dataId := dataId a
|}.

Definition set_dataId (n : Z) (a : Argument) : Argument := {|
  in_ := in_ a; value := value a; ids := ids a; grad := grad a;
  strs := strs a; frameHeight := frameHeight a; frameWidth := frameWidth a;
  sequenceStartPositions := sequenceStartPositions a;
  subSequenceStartPositions := subSequenceStartPositions a;
  cpuSequenceDims := cpuSequenceDims a; udp := udp a;
  deviceId := deviceId a; allCount := allCount a;
  valueCount := valueCount a; gradCount := gradCount a; dataId := n
|}.

Definition set_allCount (n : Z) (a : Argument) : Argument := {|
  in_ := in_ a; value := value a; ids := ids a; grad := grad a;
  strs := strs a; frameHeight := frameHeight a; frameWidth := frameWidth a;
  sequenceStartPositions := sequenceStartPositions a;
  subSequenceStartPositions := subSequenceStartPositions a;
  cpuSequenceDims := cpuSequenceDims a; udp := udp a;
  deviceId := deviceId a; allCount := n;
  valueCount := valueCount a; gradCount := gradCount a; dataId := dataId a
|}.

(** [operator=]: [this] takes fourteen members of [argument]; the two
    counters of [this] are not assigned. *)
Definition assign (this argument : Argument) : Argument := {|
  in_ := in_ argument;
  value := value argument;
  ids := ids argument;
  grad := grad argument;
  strs := strs argument;
  sequenceStartPositions := sequenceStartPositions argument;
  subSequenceStartPositions := subSequenceStartPositions argument;
  cpuSequenceDims := cpuSequenceDims argument;
  udp := udp argument;
  deviceId := deviceId argument;
  allCount := allCount argument;
  frameHeight := frameHeight argument;
  frameWidth := frameWidth argument;
  dataId := dataId argument;
  valueCount := valueCount this;
  gradCount := gradCount this
|}.

(** The copy constructor.  [raw] is the object before the body runs: its
    members hold whatever default initialisation left there. *)
Definition copy_construct (raw argument : Argument) : Argument :=
  let this := assign raw argument in
  let this := set_valueCount 0 this in
  let this := set_gradCount 0 this in
  set_dataId (dataId argument) this.

Definition countIncrement (a : Argument) : Argument :=
  set_allCount (wrap_int (allCount a + 1)) a.

Definition getAllCount (a : Argument) : Z := allCount a.

(** ** The readiness counters *)

(** Modelled from the spec: LockedCondition of paddle/utils/Locks.h, a
    condition variable with its own lock.  [wait(pred)] returns once
    [pred] holds, evaluated under the lock, and suspends the caller while
    it does not; [notify_all(op)] runs [op] under the lock and wakes all
    waiters. *)
Definition LockedCondition_wait (pred : Argument -> bool) (a : Argument)
  : outcome Argument :=
  if pred a then Ok a else Blocked.

Definition LockedCondition_notify_all (op : Argument -> Argument)
  (a : Argument) : Argument := op a.

(** The predicate of [waitValueReady]: [valueCount != 0]. *)
Definition valueReady (a : Argument) : bool := negb (valueCount a =? 0).

(** The second critical section of [waitValueReady]: [valueCount--]. *)
Definition decrementValueCount (a : Argument) : Argument :=
  set_valueCount (wrap_int (valueCount a - 1)) a.

Definition waitValueReady (a : Argument) : outcome Argument :=
  a' ← LockedCondition_wait valueReady a;
  Ok (decrementValueCount a').

Definition notifyValueReady (a : Argument) : Argument :=
  LockedCondition_notify_all (fun a => set_valueCount (allCount a) a) a.

(** The predicate of [waitGradReady]: [gradCount == allCount]. *)
Definition gradReady (a : Argument) : bool := gradCount a =? allCount a.

Definition waitGradReady (a : Argument) : outcome Argument :=
  a' ← LockedCondition_wait gradReady a;
  Ok (set_gradCount 0 a').

Definition notifyGradReady (a : Argument) : Argument :=
  LockedCondition_notify_all
    (fun a => set_gradCount (wrap_int (gradCount a + 1)) a) a.

(** [n] calls in a row, each on the descriptor the previous one left. *)
Fixpoint waitValueReady_times (n : nat) (a : Argument) : outcome Argument :=
  match n with
  | O => Ok a
  | S n' => a' ← waitValueReady a; waitValueReady_times n' a'
  end.

Fixpoint notifyGradReady_times (n : nat) (a : Argument) : Argument :=
  match n with
  | O => a
  | S n' => notifyGradReady_times n' (notifyGradReady a)
  end.

(** *** Consumer threads inside [waitValueReady]

    A thread in [waitValueReady] goes through two critical sections of the
    descriptor's lock: the wait on the predicate, then the decrement.
    Other threads may run between the two. *)
Inductive waiter : Type :=
| AtWait          (* called, predicate not yet seen true *)
| AtDecrement     (* wait returned, decrement not yet done *)
| Returned.

Record system := {
  shared : Argument;
  waiters : list waiter
}.

(** One critical section of thread [i]; [None] when the thread cannot
    move: it is suspended in the wait, or it has returned. *)
Definition thread_step (i : nat) (s : system) : option system :=
  match waiters s !! i with
  | Some AtWait =>
      match LockedCondition_wait valueReady (shared s) with
      | Ok a => Some {| shared := a;
                        waiters := <[i := AtDecrement]> (waiters s) |}
      | _ => None
      end
  | Some AtDecrement =>
      Some {| shared := decrementValueCount (shared s);
              waiters := <[i := Returned]> (waiters s) |}
  | _ => None
  end.

Definition step (s s' : system) : Prop :=
  exists i, thread_step i s = Some s'.

(** The run in which the threads listed in [schedule] take their next
    critical section one after the other. *)
Fixpoint run (schedule : list nat) (s : system) : option system :=
  match schedule with
  | [] => Some s
  | i :: schedule' =>
      match thread_step i s with
      | Some s' => run schedule' s'
      | None => None
      end
  end.

(** A producer's [notifyValueReady] while consumers are around. *)
Definition notify_step (s : system) : system :=
  {| shared := notifyValueReady (shared s); waiters := waiters s |}.

Definition all_returned (s : system) : Prop :=
  Forall (fun w => w = Returned) (waiters s).

(** [k] consumers that have all just called [waitValueReady]. *)
Definition consumers (a : Argument) (k : nat) : system :=
  {| shared := a; waiters := replicate k AtWait |}.

(** One more consumer calls [waitValueReady]. *)
Definition arrive (s : system) : system :=
  {| shared := shared s; waiters := waiters s ++ [AtWait] |}.

Fixpoint weigh (f : waiter -> nat) (ws : list waiter) : nat :=
  match ws with
  | [] => 0
  | w :: ws' => f w + weigh f ws'
  end%nat.

(** The number of consumers that have not returned yet. *)
Definition pending (ws : list waiter) : Z :=
  Z.of_nat (weigh (fun w => match w with Returned => 0 | _ => 1 end)%nat ws).

(** The number of critical sections the consumers still have to run. *)
Definition sections_left (ws : list waiter) : nat :=
  weigh (fun w => match w with
                  | AtWait => 2 | AtDecrement => 1 | Returned => 0
                  end)%nat ws.

(** What holds in every state the consumers can reach after a notify:
    the counter is the number of consumers that have not returned. *)
Definition counting (k : Z) (s : system) : Prop :=
  allCount (shared s) = k /\
  valueCount (shared s) = pending (waiters s) /\
  pending (waiters s) <= k.

(** ** Size queries *)

Definition getBatchSize (st : Store) (a : Argument) : outcome Z :=
  if present (value a) then
    m ← deref (matrices st) (value a); Ok (to_int64 (Matrix_getHeight m))
  else if present (ids a) then
    v ← deref (ivectors st) (ids a); Ok (to_int64 (IVector_getSize v))
  else if present (grad a) then
    m ← deref (matrices st) (grad a); Ok (to_int64 (Matrix_getHeight m))
  else if present (in_ a) then
    m ← deref (matrices st) (in_ a); Ok (to_int64 (Matrix_getHeight m))
  else if present (udp a) then
    u ← deref (uvectors st) (udp a); Ok (to_int64 (Z.of_nat (length u)))
  else if present (strs a) then
    s ← deref (svectors st) (strs a); Ok (to_int64 (Z.of_nat (length s)))
  else Ok 0.


Definition getNumSequences (st : Store) (a : Argument) : outcome Z :=
  if present (sequenceStartPositions a) then
    v ← deref (cgvectors st) (sequenceStartPositions a);
    Ok (to_int64 (wrap_size_t (ICpuGpuVector_getSize v - 1)))
  else getBatchSize st a.

Definition getNumSubSequences (st : Store) (a : Argument) : outcome Z :=
  if present (subSequenceStartPositions a) then
    v ← deref (cgvectors st) (subSequenceStartPositions a);
    Ok (to_int64 (wrap_size_t (ICpuGpuVector_getSize v - 1)))
  else getBatchSize st a.

Definition hasSubseq (a : Argument) : bool :=
  present (subSequenceStartPositions a).

Definition set_cgvectors (m : gmap loc ICpuGpuVector) (st : Store) : Store := {|
  matrices := matrices st; ivectors := ivectors st; cgvectors := m;
  svectors := svectors st; uvectors := uvectors st
|}.

(** [p->getData(false)] on a boundary vector: the data pointer, and the
    store in which the vector's host mirror holds the content. *)
Definition getData_at (st : Store) (p : shared_ptr)
  : outcome (residence * list Z * Store) :=
  match p with
  | None => Undefined
  | Some l =>
      match cgvectors st !! l with
      | None => Undefined
      | Some v =>
          let '(r, d, v') := ICpuGpuVector_getData false v in
          Ok (r, d, set_cgvectors (<[l := v']> (cgvectors st)) st)
      end
  end.

Definition getCpuStartPositions (st : Store) (a : Argument)
  : outcome (residence * list Z * Store) :=
  if hasSubseq a then getData_at st (subSequenceStartPositions a)
  else getData_at st (sequenceStartPositions a).

(** The same query the way the spec words it: the finer of the two
    boundary vectors, on the host; a reported MissingField error when
    neither is there. *)
Definition finer_boundaries (a : Argument) : shared_ptr :=
  match subSequenceStartPositions a with
  | Some l => Some l
  | None => sequenceStartPositions a
  end.

Definition getCpuStartPositions_spec (st : Store) (a : Argument)
  : outcome (residence * list Z) :=
  match finer_boundaries a with
  | None => Failed MissingField
  | Some l =>
      match cgvectors st !! l with
      | Some v => Ok (Host, cg_data v)
      | None => Undefined
      end
  end.

(** The row count of each storage field, in the order in which
    [getBatchSize] looks at them; [None] for an absent field. *)
Definition rows_of {T} (count : T -> Z) (m : gmap loc T) (p : shared_ptr)
  : option Z :=
  l ← p; o ← m !! l; Some (count o).

Definition field_rows (st : Store) (a : Argument) : list (option Z) :=
  [ rows_of Matrix_getHeight (matrices st) (value a);
    rows_of IVector_getSize (ivectors st) (ids a);
    rows_of Matrix_getHeight (matrices st) (grad a);
    rows_of Matrix_getHeight (matrices st) (in_ a);
    rows_of (fun u => Z.of_nat (length u)) (uvectors st) (udp a);
    rows_of (fun s => Z.of_nat (length s)) (svectors st) (strs a) ].

(** The first present field's row count, 0 when no field is present. *)
Definition first_present_rows (st : Store) (a : Argument) : Z :=
  default 0 (head (omap id (field_rows st a))).

(** A handle that is not null owns an object. *)
Definition live {T} (m : gmap loc T) (p : shared_ptr) : Prop :=
  match p with Some l => is_Some (m !! l) | None => True end.

(** The six members that carry rows. *)
Definition storage_live (st : Store) (a : Argument) : Prop :=
  live (matrices st) (value a) /\ live (ivectors st) (ids a) /\
  live (matrices st) (grad a) /\ live (matrices st) (in_ a) /\
  live (uvectors st) (udp a) /\ live (svectors st) (strs a).

Definition handles_live (st : Store) (a : Argument) : Prop :=
  storage_live st a /\
  live (cgvectors st) (sequenceStartPositions a) /\
  live (cgvectors st) (subSequenceStartPositions a).

Definition empty_store : Store := {|
  matrices := ∅; ivectors := ∅; cgvectors := ∅; svectors := ∅; uvectors := ∅
|}.

(** ** Members declared in the header, defined elsewhere *)

(** Modelled from the spec: [Argument::splitByDataId], whose body is not
    in the header.  The descriptors are walked in order; a descriptor
    whose [dataId] is lower than the previous descriptor's starts a new
    group, every other descriptor joins the current group.  The groups
    are the header's [std::vector<std::vector<Argument>>]: a vector of
    [Argument] values, so what enters a group is the copy that the copy
    constructor makes of the descriptor.  [raw] is the storage of the
    new element before its construction. *)
Fixpoint splitByDataId_from (raw : Argument) (lastDataId : Z)
  (group : list Argument) (argus : list Argument) : list (list Argument) :=
  match argus with
  | [] => [group]
  | argu :: rest =>
      if dataId argu <? lastDataId
      then group ::
           splitByDataId_from raw (dataId argu) [copy_construct raw argu] rest
      else splitByDataId_from raw (dataId argu)
             (group ++ [copy_construct raw argu]) rest
  end.

(** Modelled from the spec: [Argument::splitByDataId] proper.  The first
    descriptor opens the first group; no descriptor, no group. *)
Definition splitByDataId (raw : Argument) (argus : list Argument)
  : list (list Argument) :=
  match argus with
  | [] => []
  | argu :: rest =>
      splitByDataId_from raw (dataId argu) [copy_construct raw argu] rest
  end.

(** What it means for [groups] to split a list at its descents: no
    group is empty, no [dataId] decreases inside a group, and from the
    last descriptor of a group to the first of the next it does. *)
Definition descends (g1 g2 : list Argument) : Prop :=
  exists x y, last g1 = Some x /\ head g2 = Some y /\ dataId y < dataId x.

Fixpoint descents_between (groups : list (list Argument)) : Prop :=
  match groups with
  | g1 :: rest =>
      match rest with
      | g2 :: _ => descends g1 g2 /\ descents_between rest
      | [] => True
      end
  | [] => True
  end.

Definition split_at_descents (argus : list Argument)
  (groups : list (list Argument)) : Prop :=
  concat groups = argus /\
  Forall (fun g => g <> []) groups /\
  Forall (fun g => Sorted Z.le (map dataId g)) groups /\
  descents_between groups.

(** Modelled from the spec: the storage collaborators' row
    concatenation.  Matrices must share their column width; the spec
    does not name the error of a mismatch, it is taken to be an
    InvariantViolation. *)
Definition concatMatrices (ms : list Matrix) : outcome Matrix :=
  match ms with
  | [] => Ok {| m_width := 0; m_rows := [] |}
  | m :: rest =>
      if forallb (fun x => m_width x =? m_width m) rest
      then Ok {| m_width := m_width m; m_rows := concat (map m_rows ms) |}
      else Failed InvariantViolation
  end.

Definition concatIVectors (vs : list IVector) : outcome IVector :=
  Ok {| iv_data := concat (map iv_data vs) |}.

Definition concatVectors {A} (vs : list (list A)) : outcome (list A) :=
  Ok (concat vs).

(** Modelled from the spec: concatenation of sequence-boundary vectors
    with running offset adjustment.  [startRow] is the number of rows of
    the sources already taken; a source's boundaries are shifted by it,
    and its first boundary falls on the last boundary written so far. *)
Fixpoint concatSeqPos (startRow : Z) (dst : list Z)
  (srcs : list (list Z * Z)) : list Z :=
  match srcs with
  | [] => dst
  | (seq, size) :: rest =>
      concatSeqPos (startRow + size)
        (removelast dst ++ map (Z.add startRow) seq) rest
  end.

(** The boundary vector of a descriptor of [size] rows: from 0 to
    [size], in the order [R] ([<=], or [<] when no sequence is empty). *)
Definition boundaries_by (R : Z -> Z -> Prop) (size : Z) (seq : list Z)
  : Prop :=
  head seq = Some 0 /\ last seq = Some size /\ Sorted R seq.

Definition boundaries_of (size : Z) (seq : list Z) : Prop :=
  boundaries_by Z.le size seq.

Definition total (sizes : list Z) : Z := fold_right Z.add 0 sizes.

(** The content of a descriptor's sequence boundaries; empty without
    them. *)
Definition boundaries (st : Store) (a : Argument) : list Z :=
  match sequenceStartPositions a ≫= fun l => cgvectors st !! l with
  | Some v => cg_data v
  | None => []
  end.

(** The matrices of one member have the same column width in all
    sources. *)
Definition width_is (st : Store) (f : Argument -> shared_ptr) (w : Z)
  (a : Argument) : Prop :=
  forall l m, f a = Some l -> matrices st !! l = Some m -> m_width m = w.

Definition share_width (st : Store) (src : list Argument) : Prop :=
  exists wi wv wg,
    Forall (fun a => width_is st in_ wi a /\ width_is st value wv a /\
                     width_is st grad wg a) src.

(** The invariant of the data model: every present storage member of a
    descriptor has as many rows as the batch size. *)
Definition rows_agree (st : Store) (a : Argument) : Prop :=
  Forall (fun o => match o with
                   | Some n => n = first_present_rows st a
                   | None => True
                   end)
         (field_rows st a).

(** All handles of a descriptor own their objects. *)
Definition descriptor_live (st : Store) (a : Argument) : Prop :=
  handles_live st a /\ live (ivectors st) (cpuSequenceDims a).

(** The boundaries of [n] rows that are a sequence each, which is what
    an absent boundary vector stands for. *)
Definition unitBoundaries (n : Z) : list Z :=
  map Z.of_nat (seq 0 (S (Z.to_nat n))).

(** Some source has the member [g]. *)
Definition any_has {A B} (g : A -> option B) (src : list A) : bool :=
  existsb (fun a => match g a with Some _ => true | None => false end) src.

(** The number of sequences that a boundary vector delimits. *)
Definition sequences_in (seq : list Z) : nat := pred (length seq).

Definition sequences_of (seqs : list (list Z)) : nat :=
  fold_right Nat.add 0%nat (map sequences_in seqs).

(** The objects that the handles [ps] own, [None] for a null handle;
    undefined behaviour when a handle owns nothing. *)
Fixpoint gather {T} (m : gmap loc T) (ps : list shared_ptr)
  : outcome (list (option T)) :=
  match ps with
  | [] => Ok []
  | None :: ps' => os ← gather m ps'; Ok (None :: os)
  | Some l :: ps' =>
      o ← deref m (Some l); os ← gather m ps'; Ok (Some o :: os)
  end.

(** Modelled from the spec: one member of the result of
    [Argument::concat(src)], made of the sources' members, each paired
    with the batch size of its source.  The result is a descriptor of
    all the rows of the sources, and each present member of a
    descriptor has a row for each row of the descriptor; so a member that
    no source has is absent, and any other is the concatenation, in
    order, of one block per source: the source's member, or as many
    blank rows as the source has rows when the source lacks the
    member. *)
Definition concatBlocks {T} (blankLike : T -> Z -> T)
  (appendAll : list T -> outcome T) (xs : list (option T * Z))
  : outcome (option T) :=
  match omap fst xs with
  | [] => Ok None
  | like :: _ =>
      o ← appendAll
            (map (fun x => match x.1 with
                           | Some t => t
                           | None => blankLike like x.2
                           end) xs);
      Ok (Some o)
  end.

(** Modelled from the spec: the boundary vector of the result, made on
    the host from the sources' vectors and batch sizes by concatenation
    with running offset.  It is absent when no source has one; a source
    without one takes part with each of its rows as a sequence. *)
Definition concatBoundaries (xs : list (option ICpuGpuVector * Z))
  : outcome (option ICpuGpuVector) :=
  match omap fst xs with
  | [] => Ok None
  | _ :: _ =>
      Ok (Some {| cg_data :=
                    concatSeqPos 0 []
                      (map (fun x => (match x.1 with
                                      | Some v => cg_data v
                                      | None => unitBoundaries x.2
                                      end, x.2)) xs);
                  cg_on_host := true; cg_on_device := false |})
  end.

(** Modelled from the spec: one member of the result read from the
    store [m] of the sources and put as a new object into the store
    [d]. *)
Definition concatField {T}
  (combine : list (option T * Z) -> outcome (option T))
  (m d : gmap loc T) (ps : list shared_ptr) (sizes : list Z)
  : outcome (shared_ptr * gmap loc T) :=
  os ← gather m ps;
  o ← combine (zip os sizes);
  match o with
  | None => Ok (None, d)
  | Some x => let l := fresh (dom d) in Ok (Some l, <[l := x]> d)
  end.

(** The batch sizes and the numbers of sequences of the sources, by the
    header's [getBatchSize] and [getNumSequences]. *)
Fixpoint batchSizes (st : Store) (src : list Argument) : outcome (list Z) :=
  match src with
  | [] => Ok []
  | a :: src' =>
      n ← getBatchSize st a; ns ← batchSizes st src'; Ok (n :: ns)
  end.

Fixpoint sequenceCounts (st : Store) (src : list Argument)
  : outcome (list Z) :=
  match src with
  | [] => Ok []
  | a :: src' =>
      n ← getNumSequences st a; ns ← sequenceCounts st src'; Ok (n :: ns)
  end.

Section Concatenation.

(** What a row of the destination holds to which no row of a source is
    copied: nothing is said about it, so it is left open. *)
Variable blank : real.
Variable blank_id : Z.

(** Modelled from the spec: [n] rows without content, of the shape of
    [like], for each kind of storage. *)
Definition blankMatrix (like : Matrix) (n : Z) : Matrix :=
  {| m_width := m_width like;
     m_rows := replicate (Z.to_nat n)
                 (replicate (Z.to_nat (m_width like)) blank) |}.

Definition blankIVector (like : IVector) (n : Z) : IVector :=
  {| iv_data := replicate (Z.to_nat n) blank_id |}.

Definition blankStrs (like : list String.string) (n : Z)
  : list String.string :=
  replicate (Z.to_nat n) String.EmptyString.

Definition blankUdp (like : list Z) (n : Z) : list Z :=
  replicate (Z.to_nat n) 0.

(** Modelled from the spec: [Argument::concat(src)], whose body is not in
    the header.  It concatenates whole descriptors in order and puts the
    result into [this]: the storage members, the two boundary vectors and
    the sequence dimensions of [this] are replaced by what the sources
    give, the members with a row per row of the batch by blocks of the
    sources' batch sizes, [cpuSequenceDims] by blocks of the sources'
    numbers of sequences.  The spec gives nothing for the shape hints,
    the device, the counters and the data id: those of [this] stay. *)
Definition Argument_concat (st : Store) (this : Argument)
  (src : list Argument) : outcome (Argument * Store) :=
  sizes ← batchSizes st src;
  counts ← sequenceCounts st src;
  '(in', ms) ← concatField (concatBlocks blankMatrix concatMatrices)
                  (matrices st) (matrices st) (map in_ src) sizes;
  '(value', ms) ← concatField (concatBlocks blankMatrix concatMatrices)
                     (matrices st) ms (map value src) sizes;
  '(grad', ms) ← concatField (concatBlocks blankMatrix concatMatrices)
                    (matrices st) ms (map grad src) sizes;
  '(ids', ivs) ← concatField (concatBlocks blankIVector concatIVectors)
                   (ivectors st) (ivectors st) (map ids src) sizes;
  '(dims', ivs) ← concatField (concatBlocks blankIVector concatIVectors)
                    (ivectors st) ivs (map cpuSequenceDims src) counts;
  '(strs', svs) ← concatField (concatBlocks blankStrs concatVectors)
                    (svectors st) (svectors st) (map strs src) sizes;
  '(udp', uvs) ← concatField (concatBlocks blankUdp concatVectors)
                   (uvectors st) (uvectors st) (map udp src) sizes;
  '(seq', cgs) ← concatField concatBoundaries (cgvectors st) (cgvectors st)
                   (map sequenceStartPositions src) sizes;
  '(sub', cgs) ← concatField concatBoundaries (cgvectors st) cgs
                   (map subSequenceStartPositions src) sizes;
  Ok ({| in_ := in'; value := value'; ids := ids'; grad := grad';
         strs := strs';
         frameHeight := frameHeight this; frameWidth := frameWidth this;
         sequenceStartPositions := seq';
         subSequenceStartPositions := sub';
         cpuSequenceDims := dims'; udp := udp';
         deviceId := deviceId this; allCount := allCount this;
         valueCount := valueCount this; gradCount := gradCount this;
         dataId := dataId this |},
      {| matrices := ms; ivectors := ivs; cgvectors := cgs;
         svectors := svs; uvectors := uvs |}).

End Concatenation.

(** ** sumCosts *)

Section SumCosts.

(** Addition and zero of [real], and the matrix reduce-sum kernel. *)
Variable rzero : real.
Variable radd : real -> real -> real.
Variable Matrix_getSum : Matrix -> real.

(** The device context of the calling thread: the active device, and the
    reduce-sums issued so far, each with the device active at that time. *)
Record DeviceContext := {
  active_device : Z;
  issued : list (loc * Z)
}.

(** Modelled from the spec: the scoped guard SetDevice of paddle/utils.
    Its construction makes [deviceId] the active device, its destruction
    restores the device that was active before. *)
Definition SetDevice_enter (deviceId : Z) (c : DeviceContext)
  : Z * DeviceContext :=
  (active_device c, {| active_device := deviceId; issued := issued c |}).

Definition SetDevice_exit (saved : Z) (c : DeviceContext) : DeviceContext :=
  {| active_device := saved; issued := issued c |}.

Definition issue_sum (l : loc) (c : DeviceContext) : DeviceContext :=
  {| active_device := active_device c;
     issued := issued c ++ [(l, active_device c)] |}.

Fixpoint sumCosts_loop (st : Store) (cost : real) (c : DeviceContext)
  (arguments : list Argument) : outcome (real * DeviceContext) :=
  match arguments with
  | [] => Ok (cost, c)
  | arg :: rest =>
      match value arg with
      | Some l =>
          let '(saved, c1) := SetDevice_enter (deviceId arg) c in
          m ← deref (matrices st) (value arg);
          let c2 := issue_sum l c1 in
          let cost' := radd cost (Matrix_getSum m) in
          sumCosts_loop st cost' (SetDevice_exit saved c2) rest
      | None => sumCosts_loop st cost c rest
      end
  end.

Definition sumCosts (st : Store) (c : DeviceContext)
  (arguments : list Argument) : outcome (real * DeviceContext) :=
  sumCosts_loop st rzero c arguments.

(** The descriptors that carry a value, each with its matrix. *)
Definition with_value (st : Store) (arguments : list Argument)
  : list (Argument * loc * Matrix) :=
  omap (fun arg => l ← value arg; m ← matrices st !! l; Some (arg, l, m))
       arguments.

(** The sums that the loop adds to [cost], in order. *)
Definition summands (xs : list (Argument * loc * Matrix)) : list real :=
  map (fun x => Matrix_getSum x.2) xs.

End SumCosts.

(** The reduce-sums that the loop issues, each with the device it has to
    run on. *)
Definition sums_on_devices (xs : list (Argument * loc * Matrix))
  : list (loc * Z) :=
  map (fun x => (x.1.2, deviceId x.1.1)) xs.

End Descriptor.

(** ** A small store for examples

    Two descriptors on devices 0 and 1 with value matrices of 4 and 5
    rows of width 2 over the integers, and with one sequence each. *)

Definition sample_matrix (h : nat) : @Matrix Z :=
  {| m_width := 2; m_rows := replicate h [1; 2] |}.

Definition sample_boundaries (n : Z) : ICpuGpuVector :=
  {| cg_data := [0; n]; cg_on_host := false; cg_on_device := true |}.

Definition sample_store : @Store Z := {|
  matrices := <[1%positive := sample_matrix 4]>
                (<[2%positive := sample_matrix 5]> ∅);
  ivectors := ∅;
  cgvectors := <[1%positive := sample_boundaries 4]>
                 (<[2%positive := sample_boundaries 5]> ∅);
  svectors := ∅;
  uvectors := ∅
|}.

Definition sample_argument (l : loc) (device : Z) : Argument := {|
  in_ := None; value := Some l; ids := None; grad := None; strs := None;
  frameHeight := 0; frameWidth := 0;
  sequenceStartPositions := Some l; subSequenceStartPositions := None;
  cpuSequenceDims := None; udp := None;
  deviceId := device; allCount := 0; valueCount := 0; gradCount := 0;
  dataId := 0
|}.

Definition sample_a : Argument := sample_argument 1%positive 0.
Definition sample_b : Argument := sample_argument 2%positive 1.

(** The same store with a vector of 5 ids, and a descriptor that has
    these ids, no value and one sequence. *)
Definition ids_store : @Store Z := {|
  matrices := matrices sample_store;
  ivectors := <[1%positive := {| iv_data := [3; 1; 4; 1; 5] |}]> ∅;
  cgvectors := cgvectors sample_store;
  svectors := ∅;
  uvectors := ∅
|}.

Definition sample_ids : Argument := {|
  in_ := None; value := None; ids := Some 1%positive; grad := None;
  strs := None; frameHeight := 0; frameWidth := 0;
  sequenceStartPositions := Some 2%positive;
  subSequenceStartPositions := None;
  cpuSequenceDims := None; udp := None;
  deviceId := 0; allCount := 0; valueCount := 0; gradCount := 0;
  dataId := 0
|}.

(** The reduce-sum over the integers. *)
Definition sample_getSum (m : @Matrix Z) : Z :=
  fold_left Z.add (concat (m_rows m)) 0.

(** ** Further members and runs *)

Definition setFrameHeight (h : Z) (a : Argument) : Argument := {|
  in_ := in_ a; value := value a; ids := ids a; grad := grad a;
  strs := strs a; frameHeight := h; frameWidth := frameWidth a;
  sequenceStartPositions := sequenceStartPositions a;
  subSequenceStartPositions := subSequenceStartPositions a;
  cpuSequenceDims := cpuSequenceDims a; udp := udp a;
  deviceId := deviceId a; allCount := allCount a;
  valueCount := valueCount a; gradCount := gradCount a; dataId := dataId a
|}.


(** [n] calls of [countIncrement] in a row. *)
Fixpoint countIncrement_times (n : nat) (a : Argument) : Argument :=
  match n with
  | O => a
  | S n' => countIncrement_times n' (countIncrement a)
  end.

(** The result of a call, passed through a function when there is one. *)
Definition outcome_map {A B} (f : A -> B) (o : outcome A) : outcome B :=
  match o with
  | Ok a => Ok (f a)
  | Blocked => Blocked
  | Failed e => Failed e
  | Undefined => Undefined
  end.

(** The forward half of a pass on one descriptor: the producer notifies,
    then each of the [allCount] consumers waits.  The backward half: each
    of the [allCount] contributors notifies, then the producer waits. *)
Definition forward_pass (a : Argument) : outcome Argument :=
  waitValueReady_times (Z.to_nat (allCount a)) (notifyValueReady a).

Definition backward_pass (a : Argument) : outcome Argument :=
  waitGradReady (notifyGradReady_times (Z.to_nat (allCount a)) a).

Fixpoint passes (n : nat) (a : Argument) : outcome Argument :=
  match n with
  | O => Ok a
  | S n' => a1 ← forward_pass a; a2 ← backward_pass a1; passes n' a2
  end.

(** What holds in every state that consumers can reach when [spare]
    units more than consumers were notified. *)
Definition counting_spare (spare : Z) (s : system) : Prop :=
  0 <= spare /\
  valueCount (shared s) = spare + pending (waiters s) /\
  valueCount (shared s) <= INT_MAX.

(** The schedule in which each of [n] consumers first passes the wait
    and only then the first of them decrements. *)
Definition all_wake_then_decrement (n : nat) : list nat :=
  seq 0 n ++ seq 0 n.

(** *** The producer inside [waitGradReady]

    The producer goes through the wait on the predicate, which holds the
    descriptor's lock, and then through [gradCount = 0], which does not.
    A contributor's [notifyGradReady] may run between the two. *)
Inductive producer : Type :=
| AtGradWait      (* called, predicate not yet seen true *)
| AtGradReset     (* wait returned, gradCount not yet put back *)
| GradReturned.

Record grad_system := {
  accumulator : Argument;
  the_producer : producer
}.

Inductive grad_event : Type :=
| Contribute      (* some contributor runs notifyGradReady *)
| Produce.        (* the producer takes its next step *)

Definition grad_step (e : grad_event) (s : grad_system)
  : option grad_system :=
  match e with
  | Contribute =>
      Some {| accumulator := notifyGradReady (accumulator s);
              the_producer := the_producer s |}
  | Produce =>
      match the_producer s with
      | AtGradWait =>
          match LockedCondition_wait gradReady (accumulator s) with
          | Ok a => Some {| accumulator := a; the_producer := AtGradReset |}
          | _ => None
          end
      | AtGradReset =>
          Some {| accumulator := set_gradCount 0 (accumulator s);
                  the_producer := GradReturned |}
      | GradReturned => None
      end
  end.

Fixpoint grad_run (schedule : list grad_event) (s : grad_system)
  : option grad_system :=
  match schedule with
  | [] => Some s
  | e :: schedule' =>
      match grad_step e s with
      | Some s' => grad_run schedule' s'
      | None => None
      end
  end.

(** A descriptor with two sequences of three sub-sequences in all, over
    six rows. *)
Definition nested_store : @Store Z := {|
  matrices := <[1%positive := sample_matrix 6]> ∅;
  ivectors := ∅;
  cgvectors :=
    <[1%positive := {| cg_data := [0; 4; 6]; cg_on_host := true;
                       cg_on_device := false |}]>
      (<[2%positive := {| cg_data := [0; 2; 4; 6]; cg_on_host := false;
                          cg_on_device := true |}]> ∅);
  svectors := ∅;
  uvectors := ∅
|}.

Definition nested_argument : Argument := {|
  in_ := None; value := Some 1%positive; ids := None; grad := None;
  strs := None; frameHeight := 0; frameWidth := 0;
  sequenceStartPositions := Some 1%positive;
  subSequenceStartPositions := Some 2%positive;
  cpuSequenceDims := None; udp := None;
  deviceId := 0; allCount := 0; valueCount := 0; gradCount := 0;
  dataId := 0
|}.

(** * Properties *)

(** ** Machine integers *)

Lemma wrap_int_id (z : Z) : in_int z -> wrap_int z = z.
Proof.
  unfold in_int, INT_MAX, wrap_int. intros H.
  rewrite Z.mod_small by lia. lia.
Qed.

Lemma to_int64_id (z : Z) : in_int64 z -> to_int64 z = z.
Proof.
  unfold in_int64, INT64_MAX, to_int64. intros H.
  rewrite Z.mod_small by lia. lia.
Qed.

(** [size - 1] in [size_t], read back as [int64_t]: one less than the
    size, also for the empty vector. *)
Lemma size_minus_one (n : Z) :
  0 <= n <= 2 ^ 63 -> to_int64 (wrap_size_t (n - 1)) = n - 1.
Proof.
  intros H. unfold to_int64, wrap_size_t.
  destruct (Z.eq_dec n 0) as [-> | Hn].
  - reflexivity.
  - rewrite (Z.mod_small (n - 1)) by lia.
    rewrite Z.mod_small by lia. lia.
Qed.

(** ** Copy and assignment *)

(** C3: the copy constructor leaves both counters of the new descriptor at
    0 whatever the source's counters are, and gives every other member the
    source's value; the storage members are the same handles, so the copy
    shares the source's objects. *)
Theorem copy_construct_resets_counters (raw a : Argument) :
  let c := copy_construct raw a in
  valueCount c = 0 /\ gradCount c = 0 /\
  in_ c = in_ a /\ value c = value a /\ ids c = ids a /\ grad c = grad a /\
  strs c = strs a /\
  sequenceStartPositions c = sequenceStartPositions a /\
  subSequenceStartPositions c = subSequenceStartPositions a /\
  cpuSequenceDims c = cpuSequenceDims a /\ udp c = udp a /\
  deviceId c = deviceId a /\ allCount c = allCount a /\
  frameHeight c = frameHeight a /\ frameWidth c = frameWidth a /\
  dataId c = dataId a.
Proof. cbn. repeat split. Qed.

(** C4, as the code has it: assignment gives the target every member of
    the source except the two counters, which keep the target's own
    values; the source's counters are never transferred. *)
Theorem assign_keeps_target_counters (b a : Argument) :
  let b' := assign b a in
  valueCount b' = valueCount b /\ gradCount b' = gradCount b /\
  in_ b' = in_ a /\ value b' = value a /\ ids b' = ids a /\
  grad b' = grad a /\ strs b' = strs a /\
  sequenceStartPositions b' = sequenceStartPositions a /\
  subSequenceStartPositions b' = subSequenceStartPositions a /\
  cpuSequenceDims b' = cpuSequenceDims a /\ udp b' = udp a /\
  deviceId b' = deviceId a /\ allCount b' = allCount a /\
  frameHeight b' = frameHeight a /\ frameWidth b' = frameWidth a /\
  dataId b' = dataId a.
Proof. cbn. repeat split. Qed.

(** C4 as stated fails: a target that is three consumers into a pass is
    still there after it has been assigned a fresh descriptor. *)
Lemma assign_does_not_reset_counters :
  let b := set_gradCount 2 (set_valueCount 3 Argument_default) in
  let b' := assign b Argument_default in
  ~ (valueCount b' = 0 /\ gradCount b' = 0).
Proof. cbn. intros [H _]. discriminate H. Qed.

(** ** The readiness counters *)

Lemma set_valueCount_twice (n m : Z) (a : Argument) :
  set_valueCount n (set_valueCount m a) = set_valueCount n a.
Proof. reflexivity. Qed.

Lemma set_valueCount_same (a : Argument) :
  set_valueCount (valueCount a) a = a.
Proof. destruct a; reflexivity. Qed.

Lemma waitValueReady_ready (a : Argument) :
  valueCount a <> 0 -> in_int (valueCount a - 1) ->
  waitValueReady a = Ok (set_valueCount (valueCount a - 1) a).
Proof.
  intros Hne Hr. unfold waitValueReady, LockedCondition_wait, valueReady.
  destruct (Z.eqb_spec (valueCount a) 0) as [E | _]; [contradiction |].
  cbn. unfold decrementValueCount. now rewrite wrap_int_id.
Qed.

Lemma waitValueReady_blocked (a : Argument) :
  valueCount a = 0 -> waitValueReady a = Blocked.
Proof.
  intros E. unfold waitValueReady, LockedCondition_wait, valueReady.
  rewrite E. reflexivity.
Qed.

(** [j] waits in a row take [j] units when that many are there. *)
Lemma waitValueReady_times_ok (j : nat) : forall a : Argument,
  Z.of_nat j <= valueCount a <= INT_MAX ->
  waitValueReady_times j a = Ok (set_valueCount (valueCount a - Z.of_nat j) a).
Proof.
  induction j as [| j IH]; intros a H.
  - cbn. rewrite Z.sub_0_r. now rewrite set_valueCount_same.
  - cbn [waitValueReady_times].
    rewrite waitValueReady_ready; [| lia | unfold in_int, INT_MAX in *; lia].
    cbn [mbind outcome_bind obind].
    rewrite IH by (cbn; lia).
    cbn [valueCount set_valueCount]. f_equal.
    rewrite set_valueCount_twice. f_equal. lia.
Qed.

(** *** Consumers running concurrently *)

Lemma weigh_insert (f : waiter -> nat) (ws : list waiter) :
  forall (i : nat) (w w' : waiter),
  ws !! i = Some w ->
  (weigh f (<[i := w']> ws) + f w = weigh f ws + f w')%nat.
Proof.
  induction ws as [| x ws IH]; intros i w w' H; [discriminate |].
  destruct i as [| i]; cbn in H.
  - injection H as ->. cbn. lia.
  - specialize (IH i w w' H).
    change (<[S i:=w']> (x :: ws)) with (x :: <[i:=w']> ws).
    cbn [weigh]. lia.
Qed.

Lemma pending_nonneg (ws : list waiter) : 0 <= pending ws.
Proof. unfold pending. lia. Qed.

Lemma pending_insert (ws : list waiter) (i : nat) (w w' : waiter) :
  ws !! i = Some w ->
  pending (<[i := w']> ws) = pending ws - pending [w] + pending [w'].
Proof.
  intros H. unfold pending.
  pose proof (weigh_insert
    (fun w => match w with Returned => 0 | _ => 1 end)%nat ws i w w' H).
  cbn [weigh]. lia.
Qed.

Lemma sections_left_insert (ws : list waiter) (i : nat) (w w' : waiter) :
  ws !! i = Some w ->
  (sections_left (<[i := w']> ws) + sections_left [w] =
   sections_left ws + sections_left [w'])%nat.
Proof.
  intros H. unfold sections_left.
  pose proof (weigh_insert
    (fun w => match w with
              | AtWait => 2 | AtDecrement => 1 | Returned => 0
              end)%nat ws i w w' H).
  cbn [weigh]. lia.
Qed.

Lemma pending_replicate (k : nat) : pending (replicate k AtWait) = Z.of_nat k.
Proof.
  unfold pending. f_equal.
  induction k as [| k IH]; [reflexivity |]. cbn in *. lia.
Qed.

Lemma sections_left_replicate (k : nat) :
  sections_left (replicate k AtWait) = (2 * k)%nat.
Proof.
  unfold sections_left.
  induction k as [| k IH]; [reflexivity |]. cbn in *. lia.
Qed.

Lemma pending_zero_all_returned (ws : list waiter) :
  pending ws = 0 <-> Forall (fun w => w = Returned) ws.
Proof.
  unfold pending. induction ws as [| x ws IH].
  - split; [constructor | reflexivity].
  - split.
    + intros H. destruct x; cbn in H; try lia.
      constructor; [reflexivity |]. apply IH. cbn. lia.
    + intros HF. inversion HF as [| ? ? Hx HF']; subst.
      apply IH in HF'. cbn. lia.
Qed.

Lemma pending_positive_lookup (ws : list waiter) :
  0 < pending ws -> exists i w, ws !! i = Some w /\ w <> Returned.
Proof.
  unfold pending. induction ws as [| x ws IH]; [cbn; lia |].
  intros Hp. destruct x.
  - exists 0%nat, AtWait. split; [reflexivity | discriminate].
  - exists 0%nat, AtDecrement. split; [reflexivity | discriminate].
  - destruct IH as (i & w & Hi & Hw); [cbn in Hp; lia |].
    exists (S i), w. split; assumption.
Qed.

Lemma thread_step_counting (k : Z) (i : nat) (s s' : system) :
  k <= INT_MAX -> counting k s -> thread_step i s = Some s' ->
  counting k s' /\
  S (sections_left (waiters s')) = sections_left (waiters s).
Proof.
  intros Hk (Hall & Hval & Hle) Hstep. unfold thread_step in Hstep.
  destruct (waiters s !! i) as [[| |] |] eqn:Hi; try discriminate.
  - unfold LockedCondition_wait in Hstep.
    destruct (valueReady (shared s)); [| discriminate].
    injection Hstep as <-. unfold counting. cbn [shared waiters].
    pose proof (pending_insert _ _ _ AtDecrement Hi) as Hp.
    pose proof (sections_left_insert _ _ _ AtDecrement Hi) as Hs.
    change (pending [AtWait]) with 1 in Hp.
    change (pending [AtDecrement]) with 1 in Hp.
    change (sections_left [AtWait]) with 2%nat in Hs.
    change (sections_left [AtDecrement]) with 1%nat in Hs.
    split; [| lia].
    repeat split; [assumption | lia | lia].
  - injection Hstep as <-. unfold counting. cbn [shared waiters].
    pose proof (pending_insert _ _ _ Returned Hi) as Hp.
    pose proof (sections_left_insert _ _ _ Returned Hi) as Hs.
    change (pending [AtDecrement]) with 1 in Hp.
    change (pending [Returned]) with 0 in Hp.
    pose proof (pending_nonneg (<[i:=Returned]> (waiters s))) as Hnn.
    change (sections_left [AtDecrement]) with 1%nat in Hs.
    change (sections_left [Returned]) with 0%nat in Hs.
    split; [| lia].
    unfold decrementValueCount. cbn [allCount valueCount set_valueCount].
    rewrite wrap_int_id by (unfold in_int, INT_MAX in *; lia).
    repeat split; [assumption | lia | lia].
Qed.

Lemma nsteps_counting (k : Z) (n : nat) (s s' : system) :
  k <= INT_MAX -> counting k s -> nsteps step n s s' ->
  counting k s' /\
  (sections_left (waiters s') + n = sections_left (waiters s))%nat.
Proof.
  intros Hk Hc Hn. induction Hn as [s | n s t u [i Hst] _ IH].
  - split; [assumption | lia].
  - destruct (thread_step_counting k i s t Hk Hc Hst) as [Hc' Hm].
    destruct (IH Hc') as [Hc'' Hm']. split; [assumption | lia].
Qed.

(** No consumer is left suspended while units remain: as long as some
    consumer has not returned, some consumer can move. *)
Lemma counting_progress (k : Z) (s : system) :
  counting k s -> ~ all_returned s -> exists s', step s s'.
Proof.
  intros (Hall & Hval & Hle) Hnot.
  assert (0 < pending (waiters s)) as Hpos.
  { pose proof (pending_nonneg (waiters s)).
    destruct (Z.eq_dec (pending (waiters s)) 0) as [E | E]; [| lia].
    exfalso. apply Hnot. now apply pending_zero_all_returned. }
  destruct (pending_positive_lookup _ Hpos) as (i & w & Hi & Hw).
  unfold step, thread_step.
  destruct w; [| | contradiction].
  - exists {| shared := shared s;
              waiters := <[i := AtDecrement]> (waiters s) |}, i.
    rewrite Hi. unfold LockedCondition_wait, valueReady.
    destruct (Z.eqb_spec (valueCount (shared s)) 0) as [E | _]; [lia |].
    reflexivity.
  - eexists. exists i. rewrite Hi. reflexivity.
Qed.

Lemma thread_step_length (i : nat) (s s' : system) :
  thread_step i s = Some s' -> length (waiters s') = length (waiters s).
Proof.
  unfold thread_step. intros H.
  destruct (waiters s !! i) as [[| |] |]; try discriminate.
  - destruct (LockedCondition_wait valueReady (shared s)); try discriminate.
    injection H as <-. cbn. apply length_insert.
  - injection H as <-. cbn. apply length_insert.
Qed.

Lemma nsteps_length (n : nat) (s s' : system) :
  nsteps step n s s' -> length (waiters s') = length (waiters s).
Proof.
  induction 1 as [s | n s t u [i Hst] _ IH]; [reflexivity |].
  rewrite IH. eapply thread_step_length, Hst.
Qed.

Lemma all_returned_sections_left (ws : list waiter) :
  Forall (fun w => w = Returned) ws -> sections_left ws = 0%nat.
Proof.
  unfold sections_left. induction 1 as [| x ws -> _ IH]; [reflexivity |].
  cbn [weigh]. now rewrite IH.
Qed.

Lemma counting_consumers (a : Argument) (k : nat) :
  valueCount a = Z.of_nat k -> allCount a = Z.of_nat k ->
  counting (Z.of_nat k) (consumers a k).
Proof.
  intros Hv Ha. unfold counting, consumers. cbn [shared waiters].
  rewrite pending_replicate. repeat split; [assumption | assumption | lia].
Qed.

(** A consumer that arrives when the counter is 0 is suspended; it moves
    once the producer has notified again. *)
Lemma late_consumer (s : system) :
  valueCount (shared s) = 0 -> allCount (shared s) <> 0 ->
  let i := length (waiters s) in
  thread_step i (arrive s) = None /\
  is_Some (thread_step i (notify_step (arrive s))).
Proof.
  intros Hv Ha i. subst i. unfold thread_step, arrive, notify_step.
  cbn [shared waiters].
  rewrite lookup_app_r by lia. rewrite Nat.sub_diag. cbn [lookup list_lookup].
  unfold LockedCondition_wait, valueReady, notifyValueReady,
    LockedCondition_notify_all.
  cbn [valueCount set_valueCount]. rewrite Hv. cbn [Z.eqb negb].
  split; [reflexivity |].
  destruct (Z.eqb_spec (allCount (shared s)) 0) as [E | _]; [contradiction |].
  cbn [negb]. eexists; reflexivity.
Qed.

(** Two consumers of a descriptor with [allCount = 2]: both wake up
    before either decrements, and both return. *)
Example two_consumers_interleaved :
  let a0 := notifyValueReady (set_allCount 2 Argument_default) in
  run [0; 1; 1; 0]%nat (consumers a0 2) =
  Some {| shared := set_valueCount 0 a0; waiters := [Returned; Returned] |}.
Proof. reflexivity. Qed.

(** A consumer that calls before the notify is suspended. *)
Example consumer_before_notify :
  waitValueReady (set_allCount 2 Argument_default) = Blocked /\
  thread_step 0 (consumers (set_allCount 2 Argument_default) 1) = None.
Proof. split; reflexivity. Qed.

(** The protocol counts on at most [allCount] consumers per notify.  One
    consumer more that reaches the wait before the others have decremented
    is not suspended, since the counter is still not 0, and the counter
    ends below 0. *)
Remark extra_consumer_overshoots :
  let a0 := notifyValueReady (set_allCount 1 Argument_default) in
  exists s, run [0; 1; 0; 1]%nat (consumers a0 2) = Some s /\
            all_returned s /\ valueCount (shared s) = -1.
Proof.
  eexists. split; [reflexivity |]. split; [| reflexivity].
  repeat constructor.
Qed.

(** C1: with [allCount = k >= 1] and [valueCount = 0], one
    [notifyValueReady] sets [valueCount] to [k]; each of the next [k]
    [waitValueReady] calls sees [valueCount != 0], takes one unit and
    returns, which leaves [valueCount = 0]; one more call is suspended
    (its predicate is false) and goes on after the next notify.  The same
    holds when the [k] consumers run concurrently, in whatever order their
    critical sections are scheduled: while some consumer has not returned
    one of them can move, they are all back after exactly [2 * k] critical
    sections with [valueCount = 0], and a consumer that arrives then is
    suspended until the producer notifies again. *)
Theorem value_readiness_protocol (a : Argument) (k : nat) :
  1 <= Z.of_nat k <= INT_MAX ->
  allCount a = Z.of_nat k ->
  valueCount a = 0 ->
  let a0 := notifyValueReady a in
  valueCount a0 = Z.of_nat k /\
  (forall j : nat, (j < k)%nat ->
     exists aj,
       waitValueReady_times j a0 = Ok aj /\
       valueCount aj <> 0 /\
       waitValueReady aj = Ok (set_valueCount (valueCount aj - 1) aj)) /\
  (exists ak,
     waitValueReady_times k a0 = Ok ak /\
     valueCount ak = 0 /\
     waitValueReady ak = Blocked /\
     exists a', waitValueReady (notifyValueReady ak) = Ok a') /\
  (forall (n : nat) (s : system),
     nsteps step n (consumers a0 k) s ->
     (n <= 2 * k)%nat /\
     (~ all_returned s -> exists s', step s s') /\
     (all_returned s ->
        n = (2 * k)%nat /\
        valueCount (shared s) = 0 /\
        thread_step k (arrive s) = None /\
        is_Some (thread_step k (notify_step (arrive s))))).
Proof.
  intros Hk Hall Hval a0.
  assert (valueCount a0 = Z.of_nat k) as Hv0 by (cbn; exact Hall).
  assert (allCount a0 = Z.of_nat k) as Ha0 by (cbn; exact Hall).
  split; [exact Hv0 |]. split; [| split].
  - intros j Hj. eexists. split.
    + apply waitValueReady_times_ok. lia.
    + cbn [valueCount set_valueCount]. split; [lia |].
      rewrite waitValueReady_ready.
      * reflexivity.
      * cbn [valueCount set_valueCount]. lia.
      * cbn [valueCount set_valueCount]. unfold in_int, INT_MAX in *. lia.
  - eexists. split; [apply waitValueReady_times_ok; lia |].
    cbn [valueCount set_valueCount]. split; [lia |]. split.
    + apply waitValueReady_blocked. cbn [valueCount set_valueCount]. lia.
    + eexists. apply waitValueReady_ready.
      * cbn. lia.
      * cbn. unfold in_int, INT_MAX in *. lia.
  - intros n s Hn.
    pose proof (counting_consumers a0 k Hv0 Ha0) as Hc0.
    destruct (nsteps_counting _ _ _ _ (proj2 Hk) Hc0 Hn) as [Hc Hm].
    pose proof (nsteps_length _ _ _ Hn) as Hlen.
    cbn [consumers waiters] in Hm, Hlen.
    rewrite sections_left_replicate in Hm. rewrite length_replicate in Hlen.
    split; [lia |]. split; [apply (counting_progress _ _ Hc) |].
    intros Hret. destruct Hc as (Hca & Hcv & _).
    assert (valueCount (shared s) = 0) as Hz.
    { rewrite Hcv. now apply pending_zero_all_returned. }
    split; [rewrite (all_returned_sections_left _ Hret) in Hm; lia |].
    split; [exact Hz |].
    rewrite <- Hlen. apply late_consumer; [exact Hz | lia].
Qed.

(** C1 on a descriptor shared by three consumers. *)
Lemma value_readiness_protocol_three :
  let a := set_allCount 3 Argument_default in
  1 <= Z.of_nat 3 <= INT_MAX /\ allCount a = Z.of_nat 3 /\ valueCount a = 0 /\
  valueCount (notifyValueReady a) = Z.of_nat 3.
Proof.
  cbv zeta. split; [unfold INT_MAX; lia |].
  split; [reflexivity |]. split; [reflexivity |].
  apply (value_readiness_protocol (set_allCount 3 Argument_default) 3).
  - unfold INT_MAX. lia.
  - reflexivity.
  - reflexivity.
Defined.

Lemma set_gradCount_twice (n m : Z) (a : Argument) :
  set_gradCount n (set_gradCount m a) = set_gradCount n a.
Proof. reflexivity. Qed.

Lemma set_gradCount_same (a : Argument) :
  set_gradCount (gradCount a) a = a.
Proof. destruct a; reflexivity. Qed.

Lemma notifyGradReady_increments (a : Argument) :
  in_int (gradCount a + 1) ->
  notifyGradReady a = set_gradCount (gradCount a + 1) a.
Proof.
  intros H. unfold notifyGradReady, LockedCondition_notify_all.
  now rewrite wrap_int_id.
Qed.

Lemma notifyGradReady_times_count (j : nat) : forall a : Argument,
  0 <= gradCount a -> gradCount a + Z.of_nat j <= INT_MAX ->
  notifyGradReady_times j a = set_gradCount (gradCount a + Z.of_nat j) a.
Proof.
  induction j as [| j IH]; intros a H0 H.
  - cbn. rewrite Z.add_0_r. now rewrite set_gradCount_same.
  - cbn [notifyGradReady_times].
    rewrite notifyGradReady_increments by (unfold in_int, INT_MAX in *; lia).
    rewrite IH by (cbn [gradCount set_gradCount]; lia).
    cbn [gradCount set_gradCount]. rewrite set_gradCount_twice.
    f_equal. lia.
Qed.

(** C2: with [allCount = k] and [gradCount = 0], every [notifyGradReady]
    adds one to [gradCount]; before the [k]-th call [waitGradReady] is
    suspended, after it [gradCount == allCount] holds and [waitGradReady]
    returns with [gradCount] back at 0, the state the pass started in. *)
Theorem grad_readiness_protocol (a : Argument) (k : nat) :
  Z.of_nat k <= INT_MAX ->
  allCount a = Z.of_nat k ->
  gradCount a = 0 ->
  (forall j : nat, (j < k)%nat ->
     let aj := notifyGradReady_times j a in
     gradCount aj = Z.of_nat j /\
     gradCount (notifyGradReady aj) = gradCount aj + 1 /\
     waitGradReady aj = Blocked) /\
  (let ak := notifyGradReady_times k a in
   gradCount ak = allCount ak /\
   gradReady ak = true /\
   exists a', waitGradReady ak = Ok a' /\ gradCount a' = 0 /\ a' = a).
Proof.
  intros Hk Hall Hg. split.
  - intros j Hj aj. subst aj.
    rewrite notifyGradReady_times_count by lia.
    rewrite notifyGradReady_increments
      by (cbn [gradCount set_gradCount]; unfold in_int, INT_MAX in *; lia).
    cbn [gradCount set_gradCount]. rewrite Hg.
    split; [lia |]. split; [reflexivity |].
    unfold waitGradReady, LockedCondition_wait, gradReady.
    cbn [gradCount allCount set_gradCount]. rewrite Hall.
    destruct (Z.eqb_spec (0 + Z.of_nat j) (Z.of_nat k)) as [E | _]; [lia |].
    reflexivity.
  - intros ak. subst ak.
    rewrite notifyGradReady_times_count by lia.
    unfold gradReady, waitGradReady, LockedCondition_wait, gradReady.
    cbn [gradCount allCount set_gradCount]. rewrite Hall, Hg, Z.add_0_l.
    rewrite Z.eqb_refl. split; [reflexivity |]. split; [reflexivity |].
    eexists. split; [reflexivity |]. split; [reflexivity |].
    rewrite set_gradCount_twice.
    transitivity (set_gradCount (gradCount a) a);
      [now rewrite Hg | apply set_gradCount_same].
Qed.

(** C2 on a descriptor with two contributors. *)
Lemma grad_readiness_protocol_two :
  let a := set_allCount 2 Argument_default in
  Z.of_nat 2 <= INT_MAX /\ allCount a = Z.of_nat 2 /\ gradCount a = 0 /\
  waitGradReady (notifyGradReady (notifyGradReady a)) = Ok a.
Proof.
  cbv zeta. split; [unfold INT_MAX; lia |].
  split; [reflexivity |]. split; [reflexivity |].
  destruct (grad_readiness_protocol (set_allCount 2 Argument_default) 2)
    as [_ (_ & _ & a' & Hw & _ & Ha')].
  - unfold INT_MAX. lia.
  - reflexivity.
  - reflexivity.
  - rewrite Ha' in Hw. exact Hw.
Defined.

(** ** Size queries *)

(** The case of [getBatchSize] in which the field that owns [l] is the
    first present one. *)
Ltac first_present Hlive Hfit :=
  let o := fresh "o" in
  let Ho := fresh "Ho" in
  destruct Hlive as [o Ho];
  unfold rows_of in Hfit |- *; simpl in Hfit |- *;
  rewrite Ho in Hfit |- *; simpl in Hfit |- *;
  f_equal; apply to_int64_id; unfold in_int64;
  unfold Matrix_getHeight, IVector_getSize in *; lia.

Section Queries.

Context {real : Type}.
Implicit Types (st : @Store real) (a : Argument).

Lemma getBatchSize_rows st a :
  storage_live st a -> first_present_rows st a <= INT64_MAX ->
  getBatchSize st a = Ok (first_present_rows st a).
Proof.
  intros (Hvalue & Hids & Hgrad & Hin & Hudp & Hstrs) Hfit.
  unfold first_present_rows, field_rows in Hfit.
  unfold getBatchSize, first_present_rows, field_rows.
  destruct (value a) as [l |]; [first_present Hvalue Hfit |].
  destruct (ids a) as [l |]; [first_present Hids Hfit |].
  destruct (grad a) as [l |]; [first_present Hgrad Hfit |].
  destruct (in_ a) as [l |]; [first_present Hin Hfit |].
  destruct (udp a) as [l |]; [first_present Hudp Hfit |].
  destruct (strs a) as [l |]; [first_present Hstrs Hfit |].
  reflexivity.
Qed.

(** C5: [getBatchSize] returns the row count of the first present field
    in the order value, ids, grad, in, udp, strs (the height of a matrix,
    the number of elements of a vector), and 0 when none of the six is
    present. *)
Theorem getBatchSize_first_present st a :
  storage_live st a -> first_present_rows st a <= INT64_MAX ->
  getBatchSize st a = Ok (first_present_rows st a) /\
  (value a = None -> ids a = None -> grad a = None -> in_ a = None ->
   udp a = None -> strs a = None -> getBatchSize st a = Ok 0).
Proof.
  intros Hlive Hfit. split; [now apply getBatchSize_rows |].
  intros H1 H2 H3 H4 H5 H6. unfold getBatchSize.
  now rewrite H1, H2, H3, H4, H5, H6.
Qed.

(** C7: with sequence boundaries present [getNumSequences] is their
    length minus 1; without them it is [getBatchSize]. *)
Theorem getNumSequences_cases st a :
  (forall (l : loc) (v : ICpuGpuVector),
     sequenceStartPositions a = Some l ->
     cgvectors st !! l = Some v ->
     ICpuGpuVector_getSize v <= INT64_MAX ->
     getNumSequences st a = Ok (ICpuGpuVector_getSize v - 1)) /\
  (sequenceStartPositions a = None ->
   getNumSequences st a = getBatchSize st a).
Proof.
  unfold getNumSequences. split.
  - intros l v Hp Hl Hfit. rewrite Hp. cbn. rewrite Hl. cbn. f_equal.
    apply size_minus_one. unfold ICpuGpuVector_getSize, INT64_MAX in *. lia.
  - intros ->. reflexivity.
Qed.

Lemma getData_at_host st (l : loc) (v : ICpuGpuVector) :
  cgvectors st !! l = Some v ->
  getData_at st (Some l) =
  Ok (Host, cg_data v,
      set_cgvectors
        (<[l := {| cg_data := cg_data v; cg_on_host := true;
                   cg_on_device := cg_on_device v |}]> (cgvectors st)) st).
Proof. intros H. unfold getData_at. now rewrite H. Qed.

(** Without either boundary vector the call dereferences the null
    [sequenceStartPositions]. *)
Lemma getCpuStartPositions_neither st a :
  sequenceStartPositions a = None -> subSequenceStartPositions a = None ->
  getCpuStartPositions st a = Undefined.
Proof.
  intros H1 H2. unfold getCpuStartPositions, hasSubseq.
  rewrite H2. cbn [present]. now rewrite H1.
Qed.

(** C6, as the code has it: when one of the two boundary vectors is
    present, [getCpuStartPositions] returns the content of the finer one
    (the sub-sequence vector if present, else the sequence vector) on the
    host, and that vector's host mirror holds the content afterwards.
    The call has no check for the case that neither is present: it then
    dereferences a null handle and reports no error. *)
Theorem getCpuStartPositions_finer st a :
  (forall (l : loc) (v : ICpuGpuVector),
     finer_boundaries a = Some l ->
     cgvectors st !! l = Some v ->
     exists st',
       getCpuStartPositions st a = Ok (Host, cg_data v, st') /\
       getCpuStartPositions_spec st a = Ok (Host, cg_data v) /\
       (exists v', cgvectors st' !! l = Some v' /\
                   cg_data v' = cg_data v /\ cg_on_host v' = true) /\
       matrices st' = matrices st /\ ivectors st' = ivectors st /\
       svectors st' = svectors st /\ uvectors st' = uvectors st) /\
  (sequenceStartPositions a = None -> subSequenceStartPositions a = None ->
   getCpuStartPositions st a = Undefined).
Proof.
  split; [| apply getCpuStartPositions_neither].
  intros l v Hf Hl. eexists.
  assert (getCpuStartPositions st a = getData_at st (Some l)) as ->.
  { unfold getCpuStartPositions, hasSubseq, finer_boundaries in *.
    destruct (subSequenceStartPositions a) as [l' |]; cbn [present].
    - congruence.
    - now rewrite Hf. }
  rewrite (getData_at_host _ _ _ Hl). split; [reflexivity |].
  split; [unfold getCpuStartPositions_spec; now rewrite Hf, Hl |].
  cbn [cgvectors matrices ivectors svectors uvectors set_cgvectors].
  split; [| repeat split; reflexivity].
  eexists. rewrite lookup_insert_eq. split; [reflexivity |].
  split; reflexivity.
Qed.

End Queries.

(** ** sumCosts *)

Section SumCostsProperties.

Context {real : Type}.
Variable rzero : real.
Variable radd : real -> real -> real.
Variable Matrix_getSum : @Matrix real -> real.

Implicit Types (st : @Store real) (c : DeviceContext).

Lemma with_value_cons_some st (arg : Argument) (rest : list Argument)
  (l : loc) (m : @Matrix real) :
  value arg = Some l -> matrices st !! l = Some m ->
  with_value st (arg :: rest) = (arg, l, m) :: with_value st rest.
Proof. intros Hv Hm. unfold with_value. cbn. rewrite Hv. cbn. now rewrite Hm. Qed.

Lemma with_value_cons_none st (arg : Argument) (rest : list Argument) :
  value arg = None ->
  with_value st (arg :: rest) = with_value st rest.
Proof. intros Hv. unfold with_value. cbn. now rewrite Hv. Qed.

Lemma with_value_cons_dangling st (arg : Argument) (rest : list Argument)
  (l : loc) :
  value arg = Some l -> matrices st !! l = None ->
  with_value st (arg :: rest) = with_value st rest.
Proof. intros Hv Hm. unfold with_value. cbn. rewrite Hv. cbn. now rewrite Hm. Qed.

Lemma sumCosts_loop_spec st (arguments : list Argument) :
  Forall (fun arg => live (matrices st) (value arg)) arguments ->
  forall (cost : real) c,
    sumCosts_loop radd Matrix_getSum st cost c arguments =
    Ok (fold_left radd (summands Matrix_getSum (with_value st arguments)) cost,
        {| active_device := active_device c;
           issued := issued c ++ sums_on_devices (with_value st arguments) |}).
Proof.
  induction 1 as [| arg rest Hlive _ IH]; intros cost c.
  - cbn. rewrite app_nil_r. now destruct c.
  - cbn [sumCosts_loop].
    destruct (value arg) as [l |] eqn:Hv.
    + destruct Hlive as [m Hm].
      rewrite (with_value_cons_some _ _ _ _ _ Hv Hm).
      cbn. rewrite Hm. cbn. rewrite IH. cbn. now rewrite <- app_assoc.
    + rewrite (with_value_cons_none _ _ _ Hv). apply IH.
Qed.

Lemma with_value_present st (arguments : list Argument) :
  Forall (fun arg => live (matrices st) (value arg)) arguments ->
  map (fun x => x.1.1) (with_value st arguments) =
  List.filter (fun arg => present (value arg)) arguments.
Proof.
  induction 1 as [| arg rest Hlive _ IH]; [reflexivity |].
  cbn [List.filter].
  destruct (value arg) as [l |] eqn:Hv; cbn [present].
  - destruct Hlive as [m Hm].
    rewrite (with_value_cons_some _ _ _ _ _ Hv Hm). cbn. now rewrite IH.
  - now rewrite (with_value_cons_none _ _ _ Hv).
Qed.

Lemma with_value_sound st (arguments : list Argument) :
  Forall (fun x => value x.1.1 = Some x.1.2 /\
                   matrices st !! x.1.2 = Some x.2)
         (with_value st arguments).
Proof.
  induction arguments as [| arg rest IH]; [constructor |].
  destruct (value arg) as [l |] eqn:Hv.
  - destruct (matrices st !! l) as [m |] eqn:Hm.
    + rewrite (with_value_cons_some _ _ _ _ _ Hv Hm).
      constructor; [| exact IH]. cbn. split; [exact Hv | exact Hm].
    + now rewrite (with_value_cons_dangling _ _ _ _ Hv Hm).
  - now rewrite (with_value_cons_none _ _ _ Hv).
Qed.

(** C10: [sumCosts] returns the sum, accumulated from 0 in list order, of
    [value->getSum()] over exactly the descriptors whose [value] is
    present; a descriptor without value adds nothing, and the empty list
    gives 0.  Each reduce-sum is issued while the descriptor's [deviceId]
    is the active device, and the device that was active before the call
    is active again after it. *)
Theorem sumCosts_sums_present_values st c (arguments : list Argument) :
  Forall (fun arg => live (matrices st) (value arg)) arguments ->
  let summed := with_value st arguments in
  map (fun x => x.1.1) summed =
    List.filter (fun arg => present (value arg)) arguments /\
  Forall (fun x => value x.1.1 = Some x.1.2 /\
                   matrices st !! x.1.2 = Some x.2) summed /\
  sumCosts rzero radd Matrix_getSum st c arguments =
    Ok (fold_left radd (summands Matrix_getSum summed) rzero,
        {| active_device := active_device c;
           issued := issued c ++ sums_on_devices summed |}) /\
  sumCosts rzero radd Matrix_getSum st c [] = Ok (rzero, c).
Proof.
  intros Hlive summed. subst summed.
  split; [now apply with_value_present |].
  split; [apply with_value_sound |].
  split; [now apply sumCosts_loop_spec | reflexivity].
Qed.

End SumCostsProperties.

(** ** splitByDataId *)

Lemma Sorted_snoc (l : list Z) (x y : Z) :
  Sorted Z.le l -> last l = Some x -> x <= y -> Sorted Z.le (l ++ [y]).
Proof.
  induction l as [| h t IH]; intros Hs Hl Hxy; [discriminate |].
  apply Sorted_inv in Hs as [Hs Hh].
  destruct t as [| h' t'].
  - cbn in Hl. injection Hl as ->. cbn.
    constructor; [constructor; constructor | constructor; exact Hxy].
  - cbn [app]. constructor.
    + apply IH; [exact Hs | exact Hl | exact Hxy].
    + constructor. now apply HdRel_inv in Hh.
Qed.

Lemma Sorted_app_junction (l1 l2 : list Z) (x y : Z) :
  Sorted Z.le (l1 ++ l2) -> last l1 = Some x -> head l2 = Some y -> x <= y.
Proof.
  induction l1 as [| h t IH]; intros Hs Hl Hh; [discriminate |].
  apply Sorted_inv in Hs as [Hs Hd].
  destruct t as [| h' t'].
  - cbn in Hl. injection Hl as ->.
    destruct l2 as [| y' l2']; [discriminate |].
    cbn in Hh. injection Hh as ->. now apply HdRel_inv in Hd.
  - apply IH; [exact Hs | exact Hl | exact Hh].
Qed.

Lemma last_map_dataId (g : list Argument) (x : Argument) :
  last g = Some x -> last (map dataId g) = Some (dataId x).
Proof. intros H. change (map dataId g) with (dataId <$> g). now rewrite fmap_last, H. Qed.

(** The group under construction is a prefix of the first group that
    comes out. *)
Lemma splitByDataId_from_first (raw : Argument) (argus : list Argument) :
  forall (lastDataId : Z) (group : list Argument),
  exists g' tl,
    splitByDataId_from raw lastDataId group argus = (group ++ g') :: tl.
Proof.
  induction argus as [| argu rest IH]; intros lastDataId group.
  - exists [], []. cbn. now rewrite app_nil_r.
  - cbn [splitByDataId_from]. destruct (dataId argu <? lastDataId).
    + eexists [], _. now rewrite app_nil_r.
    + destruct (IH (dataId argu) (group ++ [copy_construct raw argu]))
        as (g' & tl & ->).
      exists (copy_construct raw argu :: g'), tl. now rewrite <- app_assoc.
Qed.

Lemma splitByDataId_from_spec (raw : Argument) (argus : list Argument) :
  forall (group : list Argument) (x : Argument),
  last group = Some x ->
  Sorted Z.le (map dataId group) ->
  split_at_descents (group ++ map (copy_construct raw) argus)
    (splitByDataId_from raw (dataId x) group argus).
Proof.
  induction argus as [| argu rest IH]; intros group x Hlast Hsorted.
  - cbn. unfold split_at_descents. cbn. rewrite !app_nil_r.
    repeat split; [| constructor; [exact Hsorted | constructor]].
    constructor; [| constructor]. intros ->. discriminate.
  - cbn [splitByDataId_from map].
    set (c := copy_construct raw argu).
    change (dataId argu) with (dataId c).
    destruct (Z.ltb_spec (dataId c) (dataId x)) as [Hlt | Hge].
    + destruct (IH [c] c eq_refl) as (Hc & Hne & Hs & Hd).
      { cbn [map]. constructor; constructor. }
      unfold split_at_descents.
      destruct (splitByDataId_from_first raw rest (dataId c) [c])
        as (g' & tl & E).
      rewrite E in *. cbn [descents_between]. rewrite concat_cons, Hc.
      repeat split.
      * constructor; [| exact Hne]. intros ->. discriminate.
      * constructor; [exact Hsorted | exact Hs].
      * exists x, c. repeat split; [exact Hlast | exact Hlt].
      * exact Hd.
    + replace (group ++ c :: map (copy_construct raw) rest)
        with ((group ++ [c]) ++ map (copy_construct raw) rest)
        by now rewrite <- app_assoc.
      apply IH.
      * now rewrite last_snoc.
      * rewrite map_app. cbn [map].
        eapply Sorted_snoc; [exact Hsorted | | exact Hge].
        now apply last_map_dataId.
Qed.

Lemma splitByDataId_spec (raw : Argument) (argus : list Argument) :
  split_at_descents (map (copy_construct raw) argus)
                    (splitByDataId raw argus).
Proof.
  destruct argus as [| argu rest].
  - repeat split; constructor.
  - apply (splitByDataId_from_spec raw rest [copy_construct raw argu]
             (copy_construct raw argu) eq_refl).
    cbn [map]. constructor; constructor.
Qed.

Lemma split_at_descents_tail (g : list Argument)
  (rest : list (list Argument)) (argus : list Argument) :
  split_at_descents argus (g :: rest) ->
  split_at_descents (concat rest) rest.
Proof.
  intros (_ & Hne & Hs & Hd). repeat split.
  - now inversion Hne.
  - now inversion Hs.
  - destruct rest; [exact I | apply Hd].
Qed.

(** A group cannot go on past the end of the matching group of another
    split of the same list. *)
Lemma split_first_group_no_longer (g1 h : list Argument)
  (r1 r2 : list (list Argument)) :
  h <> [] -> g1 <> [] ->
  Sorted Z.le (map dataId (g1 ++ h)) ->
  concat r1 = h ++ concat r2 ->
  Forall (fun g => g <> []) r1 ->
  descents_between (g1 :: r1) ->
  False.
Proof.
  intros Hh Hg1 Hs Hc Hne Hd.
  destruct r1 as [| g1' r1'].
  - cbn in Hc. destruct h; [contradiction | discriminate].
  - destruct Hd as [(x & y & Hx & Hy & Hlt) _].
    destruct g1' as [| y' g1'']; [now inversion Hne |].
    cbn in Hy. injection Hy as ->.
    destruct h as [| z h']; [contradiction |].
    cbn in Hc. injection Hc as <- _.
    rewrite map_app in Hs.
    pose proof (Sorted_app_junction _ _ (dataId x) (dataId y) Hs
                  (last_map_dataId _ _ Hx) eq_refl).
    lia.
Qed.

Lemma split_at_descents_unique (groups1 : list (list Argument)) :
  forall (argus : list Argument) (groups2 : list (list Argument)),
  split_at_descents argus groups1 ->
  split_at_descents argus groups2 ->
  groups1 = groups2.
Proof.
  induction groups1 as [| g1 r1 IH]; intros argus groups2 H1 H2.
  - destruct H1 as (<- & _). destruct H2 as (Hc & Hne & _).
    destruct groups2 as [| g2 r2]; [reflexivity |].
    inversion Hne as [| ? ? Hg2 _]; subst.
    destruct g2; [contradiction | discriminate].
  - destruct groups2 as [| g2 r2].
    { destruct H2 as (<- & _). destruct H1 as (Hc & Hne & _).
      inversion Hne as [| ? ? Hg1 _]; subst.
      destruct g1; [contradiction | discriminate]. }
    pose proof (split_at_descents_tail _ _ _ H1) as T1.
    pose proof (split_at_descents_tail _ _ _ H2) as T2.
    destruct H1 as (Hc1 & Hne1 & Hs1 & Hd1).
    destruct H2 as (Hc2 & Hne2 & Hs2 & Hd2).
    inversion Hne1 as [| ? ? Hg1 Hne1']; subst.
    inversion Hne2 as [| ? ? Hg2 Hne2']; subst.
    inversion Hs1 as [| ? ? Hsg1 _]; subst.
    inversion Hs2 as [| ? ? Hsg2 _]; subst.
    cbn [concat] in Hc2.
    apply app_eq_app in Hc2 as [h [[E1 E2] | [E1 E2]]].
    + (* g2 = g1 ++ h *)
      destruct h as [| z h'].
      * rewrite app_nil_r in E1. subst g2. cbn in E2.
        f_equal. eapply IH; [exact T1 |]. rewrite E2. exact T2.
      * exfalso. subst g2.
        eapply (split_first_group_no_longer g1 (z :: h') r1 r2);
          [discriminate | exact Hg1 | exact Hsg2 | exact E2 | exact Hne1'
          | exact Hd1].
    + (* g1 = g2 ++ h *)
      destruct h as [| z h'].
      * rewrite app_nil_r in E1. subst g1. cbn in E2.
        f_equal. eapply IH; [exact T1 |]. rewrite <- E2. exact T2.
      * exfalso. subst g1.
        eapply (split_first_group_no_longer g2 (z :: h') r2 r1);
          [discriminate | exact Hg2 | exact Hsg1 | exact E2 | exact Hne2'
          | exact Hd2].
Qed.

Lemma copies_dataId (raw : Argument) (argus : list Argument) :
  map dataId (map (copy_construct raw) argus) = map dataId argus.
Proof. rewrite map_map. reflexivity. Qed.

Lemma copies_counters (raw : Argument) (argus : list Argument) :
  Forall (fun c => valueCount c = 0 /\ gradCount c = 0)
         (map (copy_construct raw) argus).
Proof.
  induction argus as [| a rest IH]; constructor; [| exact IH].
  split; reflexivity.
Qed.

(** C9: [splitByDataId] cuts the list into consecutive groups, in order,
    with a cut exactly at each position where [dataId] is lower than at
    the previous descriptor.  The groups hold the copies of the
    descriptors that the copy constructor makes (the source's members,
    both counters 0): concatenated they are the list of these copies, in
    the order of the input; no group is empty, [dataId] never decreases
    inside a group and decreases from each group to the next, and no
    other grouping of the copies has these properties.  The [dataId]
    sequence [0,1,2,0,1] gives the two groups [0,1,2] and [0,1]. *)
Theorem splitByDataId_splits_at_descents (raw : Argument)
  (argus : list Argument) :
  let copies := map (copy_construct raw) argus in
  split_at_descents copies (splitByDataId raw argus) /\
  (forall groups : list (list Argument),
     split_at_descents copies groups -> groups = splitByDataId raw argus) /\
  map dataId (concat (splitByDataId raw argus)) = map dataId argus /\
  Forall (fun c => valueCount c = 0 /\ gradCount c = 0)
         (concat (splitByDataId raw argus)) /\
  (map dataId argus = [0; 1; 2; 0; 1] ->
   map (map dataId) (splitByDataId raw argus) = [[0; 1; 2]; [0; 1]]).
Proof.
  intros copies. subst copies.
  pose proof (splitByDataId_spec raw argus) as Hspec.
  split; [exact Hspec |]. split; [| split; [| split]].
  - intros groups H.
    exact (split_at_descents_unique _ _ _ H Hspec).
  - destruct Hspec as (-> & _). apply copies_dataId.
  - destruct Hspec as (-> & _). apply copies_counters.
  - intros H.
    destruct argus as [| a0 [| a1 [| a2 [| a3 [| a4 [| a5 t]]]]]];
      try discriminate H.
    injection H as H0 H1 H2 H3 H4.
    cbn. rewrite ?H0, ?H1, ?H2, ?H3, ?H4. cbn.
    rewrite ?H0, ?H1, ?H2, ?H3, ?H4. cbn.
    rewrite ?H0, ?H1, ?H2, ?H3, ?H4. reflexivity.
Qed.

(** C9 on five descriptors with the ids 0, 1, 2, 0, 1, each in the
    middle of a pass. *)
Lemma splitByDataId_example :
  let argus :=
    map (fun i => set_dataId i (set_valueCount 3 Argument_default))
        [0; 1; 2; 0; 1] in
  map dataId argus = [0; 1; 2; 0; 1] /\
  map (map dataId) (splitByDataId Argument_default argus) =
    [[0; 1; 2]; [0; 1]] /\
  map (map valueCount) (splitByDataId Argument_default argus) =
    [[0; 0; 0]; [0; 0]].
Proof.
  cbv zeta. split; [reflexivity |]. split; [| reflexivity].
  apply (splitByDataId_splits_at_descents Argument_default
           (map (fun i => set_dataId i (set_valueCount 3 Argument_default))
                [0; 1; 2; 0; 1])).
  reflexivity.
Defined.

(** ** concat: the sequence boundaries *)

Section Boundaries.

Variable R : Z -> Z -> Prop.
Hypothesis R_shift : forall s x y : Z, R x y -> R (s + x) (s + y).

Lemma removelast_last (l : list Z) (x : Z) :
  last l = Some x -> removelast l ++ [x] = l.
Proof.
  induction l as [| h t IH]; [discriminate |].
  destruct t as [| h' t']; intros H.
  - cbn in H. injection H as ->. reflexivity.
  - change (removelast (h :: h' :: t')) with (h :: removelast (h' :: t')).
    cbn [app]. f_equal. apply IH. exact H.
Qed.

Lemma Sorted_shift (s : Z) (l : list Z) :
  Sorted R l -> Sorted R (map (Z.add s) l).
Proof.
  induction 1 as [| h t _ IH Hd]; [constructor |].
  cbn [map]. constructor; [exact IH |].
  destruct Hd as [| y t' Hy]; constructor. now apply R_shift.
Qed.

(** Two sorted runs that overlap in one element. *)
Lemma Sorted_glue (l t : list Z) (x : Z) :
  Sorted R l -> last l = Some x -> Sorted R (x :: t) -> Sorted R (l ++ t).
Proof.
  induction l as [| h l' IH]; intros Hs Hl Ht; [discriminate |].
  apply Sorted_inv in Hs as [Hs Hd].
  destruct l' as [| h' l''].
  - cbn in Hl. injection Hl as ->. exact Ht.
  - cbn [app]. constructor.
    + apply IH; [exact Hs | exact Hl | exact Ht].
    + constructor. now apply HdRel_inv in Hd.
Qed.

Lemma last_shift (s x : Z) (l : list Z) :
  last l = Some x -> last (map (Z.add s) l) = Some (s + x).
Proof.
  intros H. change (map (Z.add s) l) with (Z.add s <$> l).
  now rewrite fmap_last, H.
Qed.

(** One source more: the boundaries written so far end at [n], the
    source has [size] rows. *)
Lemma boundaries_extend (n size : Z) (dst seq : list Z) :
  boundaries_by R n dst -> boundaries_by R size seq ->
  boundaries_by R (n + size) (removelast dst ++ map (Z.add n) seq).
Proof.
  intros (Hh & Hl & Hs) (Hh' & Hl' & Hs').
  destruct seq as [| z tl]; [discriminate |].
  cbn in Hh'. injection Hh' as ->.
  cbn [map]. rewrite Z.add_0_r.
  replace (removelast dst ++ n :: map (Z.add n) tl)
    with (dst ++ map (Z.add n) tl)
    by (rewrite <- (removelast_last dst n Hl) at 1; now rewrite <- app_assoc).
  repeat split.
  - destruct dst; [discriminate | exact Hh].
  - destruct tl as [| z' tl'].
    + cbn in Hl'. injection Hl' as <-. cbn [map].
      now rewrite app_nil_r, Z.add_0_r.
    + rewrite last_app.
      rewrite (last_shift n size (z' :: tl')); [reflexivity |].
      exact Hl'.
  - eapply Sorted_glue; [exact Hs | exact Hl |].
    apply (Sorted_shift n) in Hs'. cbn [map] in Hs'.
    now rewrite Z.add_0_r in Hs'.
Qed.

Lemma boundaries_first (size : Z) (seq : list Z) :
  boundaries_by R size seq ->
  boundaries_by R (0 + size) (removelast [] ++ map (Z.add 0) seq).
Proof.
  intros H. cbn [removelast app].
  replace (map (Z.add 0) seq) with seq; [exact H |].
  induction seq as [| h t IH]; [reflexivity |]. cbn [map].
  now rewrite <- map_id at 1.
Qed.

Lemma concatSeqPos_extend (srcs : list (list Z * Z)) :
  forall (n : Z) (dst : list Z),
  boundaries_by R n dst ->
  Forall (fun s => boundaries_by R s.2 s.1) srcs ->
  boundaries_by R (n + total (map snd srcs)) (concatSeqPos n dst srcs).
Proof.
  induction srcs as [| [seq size] rest IH]; intros n dst Hd Hall.
  - cbn. now rewrite Z.add_0_r.
  - apply Forall_cons in Hall as [Hs Hall]. cbn [concatSeqPos map total
      fold_right snd].
    fold (total (map snd rest)). rewrite Z.add_assoc.
    apply IH; [| exact Hall]. now apply boundaries_extend.
Qed.

Lemma concatSeqPos_boundaries (srcs : list (list Z * Z)) :
  srcs <> [] ->
  Forall (fun s => boundaries_by R s.2 s.1) srcs ->
  boundaries_by R (total (map snd srcs)) (concatSeqPos 0 [] srcs).
Proof.
  destruct srcs as [| [seq size] rest]; [contradiction |].
  intros _ Hall. apply Forall_cons in Hall as [Hs Hall].
  cbn [concatSeqPos map total fold_right snd].
  fold (total (map snd rest)).
  replace (size + total (map snd rest))
    with ((0 + size) + total (map snd rest)) by lia.
  apply concatSeqPos_extend; [| exact Hall]. now apply boundaries_first.
Qed.

Lemma map_add_0 (l : list Z) : map (Z.add 0) l = l.
Proof.
  induction l as [| h t IH]; [reflexivity |]. cbn [map]. now rewrite IH.
Qed.

(** The first boundary of a source falls on the last one written. *)
Lemma glue_overlap (n : Z) (dst seq : list Z) :
  last dst = Some n -> head seq = Some 0 ->
  removelast dst ++ map (Z.add n) seq = dst ++ map (Z.add n) (List.tl seq).
Proof.
  intros Hl Hh. destruct seq as [| z rest]; [discriminate |].
  cbn in Hh. injection Hh as ->. cbn [map List.tl]. rewrite Z.add_0_r.
  rewrite <- (removelast_last dst n Hl) at 2. now rewrite <- app_assoc.
Qed.

Lemma length_removelast_pred (l : list Z) :
  length (removelast l) = pred (length l).
Proof. rewrite removelast_firstn_len, length_take. lia. Qed.

Context {A : Type}.
Variables (seq_of : A -> list Z) (size_of : A -> Z).

(** Where the boundaries of each source are in the result, when the
    boundaries written so far are [dst] and end at [n]. *)
Lemma concatSeqPos_from (src : list A) :
  forall (n : Z) (dst : list Z),
  boundaries_by R n dst ->
  Forall (fun a => boundaries_by R (size_of a) (seq_of a)) src ->
  let res := concatSeqPos n dst (map (fun a => (seq_of a, size_of a)) src) in
  length res = (length dst + sequences_of (map seq_of src))%nat /\
  (forall k x, dst !! k = Some x -> res !! k = Some x) /\
  (forall i a j x,
     src !! i = Some a -> seq_of a !! j = Some x ->
     res !! (pred (length dst) + sequences_of (map seq_of (take i src)) + j)%nat
     = Some (n + total (map size_of (take i src)) + x)).
Proof.
  induction src as [| a0 rest IH]; intros n dst Hd Hall; cbn zeta.
  - split; [cbn; lia |]. split; [intros k x H; exact H |].
    intros i a j x Hi. rewrite lookup_nil in Hi. discriminate.
  - apply Forall_cons in Hall as [Hs Hall].
    pose proof (boundaries_extend n (size_of a0) dst (seq_of a0) Hd Hs) as Hd'.
    destruct (IH _ _ Hd' Hall) as (Hlen & Hpre & Hpos).
    cbn [map concatSeqPos].
    destruct Hd as (Hdh & Hdl & _). destruct Hs as (Hsh & _ & _).
    pose proof (glue_overlap n dst (seq_of a0) Hdl Hsh) as Hglue.
    assert (length dst <> 0%nat) as Hne
      by (destruct dst; [discriminate | cbn; lia]).
    assert (length (seq_of a0) <> 0%nat) as Hne'
      by (destruct (seq_of a0); [discriminate | cbn; lia]).
    assert (length (removelast dst ++ map (Z.add n) (seq_of a0)) =
            (length dst + sequences_in (seq_of a0))%nat) as Hlen'.
    { rewrite length_app, length_map, length_removelast_pred.
      unfold sequences_in. lia. }
    split; [| split].
    + rewrite Hlen, Hlen'. unfold sequences_of. cbn [map fold_right]. lia.
    + intros k x Hk. apply Hpre. rewrite Hglue.
      now apply lookup_app_l_Some.
    + intros i a j x Hi Hj. destruct i as [| i].
      * cbn in Hi. injection Hi as <-.
        apply Hpre. rewrite lookup_app_r
          by (rewrite length_removelast_pred; cbn; lia).
        rewrite length_removelast_pred.
        replace (pred (length dst) + sequences_of (map seq_of (take 0 (a0 :: rest))) + j
                 - pred (length dst))%nat with j by (cbn; lia).
        change (map (Z.add n) (seq_of a0)) with (Z.add n <$> seq_of a0).
        rewrite list_lookup_fmap, Hj. cbn. f_equal. lia.
      * cbn in Hi. specialize (Hpos i a j x Hi Hj).
        rewrite Hlen' in Hpos. cbn [take map].
        unfold sequences_of, total in *. cbn [map fold_right].
        replace (pred (length dst) +
                 (sequences_in (seq_of a0) +
                  fold_right Nat.add 0%nat
                    (map sequences_in (map seq_of (take i rest)))) + j)%nat
          with (pred (length dst + sequences_in (seq_of a0)) +
                fold_right Nat.add 0%nat
                  (map sequences_in (map seq_of (take i rest))) + j)%nat
          by lia.
        rewrite Hpos. f_equal. lia.
Qed.

(** The boundaries of source [i] are in the result from the place of
    the sequences before it, each shifted by the rows before it. *)
Lemma concatSeqPos_positions (src : list A) :
  src <> [] ->
  Forall (fun a => boundaries_by R (size_of a) (seq_of a)) src ->
  let res := concatSeqPos 0 [] (map (fun a => (seq_of a, size_of a)) src) in
  length res = S (sequences_of (map seq_of src)) /\
  (forall i a j x,
     src !! i = Some a -> seq_of a !! j = Some x ->
     res !! (sequences_of (map seq_of (take i src)) + j)%nat
     = Some (total (map size_of (take i src)) + x)).
Proof.
  destruct src as [| a0 rest]; [contradiction |]. intros _ Hall. cbn zeta.
  apply Forall_cons in Hall as [Hs Hall]. cbn [map concatSeqPos].
  pose proof (boundaries_first _ _ Hs) as Hd.
  destruct (concatSeqPos_from rest _ _ Hd Hall) as (Hlen & Hpre & Hpos).
  cbn [removelast app] in *. rewrite map_add_0 in *.
  assert (length (seq_of a0) <> 0%nat) as Hne.
  { destruct Hs as (Hh & _). destruct (seq_of a0); [discriminate | cbn; lia]. }
  split.
  - rewrite Hlen. unfold sequences_of. cbn [map fold_right].
    unfold sequences_in at 2. lia.
  - intros i a j x Hi Hj. destruct i as [| i].
    + cbn in Hi. injection Hi as <-. cbn. apply Hpre. exact Hj.
    + cbn in Hi. specialize (Hpos i a j x Hi Hj). cbn [take map].
      unfold sequences_of, total in *. cbn [map fold_right].
      unfold sequences_in at 1. rewrite Hpos; f_equal; lia.
Qed.

End Boundaries.

(** Every place of the result belongs to a source. *)
Lemma positions_cover (seqs : list (list Z)) :
  Forall (fun s => s <> []) seqs ->
  forall k, (k < S (sequences_of seqs))%nat -> seqs <> [] ->
  exists i s j,
    seqs !! i = Some s /\ (j < length s)%nat /\
    k = (sequences_of (take i seqs) + j)%nat.
Proof.
  induction 1 as [| s rest Hs Hrest IH]; intros k Hk Hne; [contradiction |].
  unfold sequences_of in Hk. cbn [map fold_right] in Hk.
  fold (sequences_of rest) in Hk.
  assert (length s <> 0%nat) as Hlen by (destruct s; [contradiction | cbn; lia]).
  destruct (decide (k < length s)%nat) as [Hlt | Hge].
  - exists 0%nat, s, k. split; [reflexivity |]. split; [exact Hlt |].
    reflexivity.
  - assert (rest <> []) as Hrne.
    { intros ->. unfold sequences_of, sequences_in in Hk. cbn in Hk. lia. }
    destruct (IH (k - sequences_in s)%nat) as (i & s' & j & Hi & Hj & Ek);
      [unfold sequences_in in *; lia | exact Hrne |].
    exists (S i), s', j. split; [exact Hi |]. split; [exact Hj |].
    cbn [take]. unfold sequences_of in *. cbn [map fold_right].
    unfold sequences_in in *. lia.
Qed.

(** So the places of the sources' boundaries determine the vector. *)
Lemma positions_determine {A} (seq_of : A -> list Z) (size_of : A -> Z)
  (src : list A) (v w : list Z) :
  src <> [] ->
  Forall (fun a => seq_of a <> []) src ->
  length v = S (sequences_of (map seq_of src)) ->
  length w = S (sequences_of (map seq_of src)) ->
  (forall i a j x,
     src !! i = Some a -> seq_of a !! j = Some x ->
     v !! (sequences_of (map seq_of (take i src)) + j)%nat
     = Some (total (map size_of (take i src)) + x)) ->
  (forall i a j x,
     src !! i = Some a -> seq_of a !! j = Some x ->
     w !! (sequences_of (map seq_of (take i src)) + j)%nat
     = Some (total (map size_of (take i src)) + x)) ->
  v = w.
Proof.
  intros Hne Hall Hv Hw Pv Pw. apply list_eq. intros k.
  destruct (decide (k < S (sequences_of (map seq_of src)))%nat) as [Hlt | Hge].
  - destruct (positions_cover (map seq_of src)) with (k := k)
      as (i & s & j & Hi & Hj & ->);
      [now rewrite Forall_map | exact Hlt
      | destruct src; [contradiction | discriminate] |].
    change (map seq_of src) with (seq_of <$> src) in Hi.
    apply list_lookup_fmap_Some in Hi as (a & -> & Ha).
    destruct (lookup_lt_is_Some_2 _ _ Hj) as [x Hx].
    rewrite firstn_map.
    now rewrite (Pv i a j x Ha Hx), (Pw i a j x Ha Hx).
  - rewrite !lookup_ge_None_2 by lia. reflexivity.
Qed.


(** ** concat: the storage members *)

Lemma any_has_omap {A T} (g : A -> option T) (size : A -> Z) (src : list A) :
  any_has g src =
  match omap fst (map (fun a => (g a, size a)) src) with
  | [] => false
  | _ :: _ => true
  end.
Proof.
  induction src as [| a rest IH]; [reflexivity |].
  unfold any_has in *. cbn. destruct (g a); [reflexivity | exact IH].
Qed.

Lemma any_has_false {A T} (g : A -> option T) (src : list A) :
  any_has g src = false -> Forall (fun a => g a = None) src.
Proof.
  induction src as [| a rest IH]; intros H; [constructor |].
  unfold any_has in *. cbn in H. destruct (g a) eqn:E; [discriminate |].
  constructor; [exact E | exact (IH H)].
Qed.

Lemma any_has_true {A T} (g : A -> option T) (src : list A) :
  Exists (fun a => is_Some (g a)) src -> any_has g src = true.
Proof.
  induction 1 as [a rest [t Ht] | a rest _ IH]; unfold any_has in *; cbn.
  - now rewrite Ht.
  - destruct (g a); [reflexivity | exact IH].
Qed.

Lemma any_has_ext {A T U} (g : A -> option T) (h : A -> option U)
  (src : list A) :
  Forall (fun a => is_Some (g a) <-> is_Some (h a)) src ->
  any_has g src = any_has h src.
Proof.
  induction 1 as [| a rest Ha _ IH]; [reflexivity |].
  unfold any_has in *. cbn. rewrite IH.
  destruct (g a) as [t |], (h a) as [u |]; try reflexivity.
  - destruct (proj1 Ha (ex_intro _ t eq_refl)); discriminate.
  - destruct (proj2 Ha (ex_intro _ u eq_refl)); discriminate.
Qed.

(** The source that gives the first present member. *)
Lemma omap_head_source {A T} (g : A -> option T) (size : A -> Z)
  (src : list A) (like : T) (others : list T) :
  omap fst (map (fun a => (g a, size a)) src) = like :: others ->
  Exists (fun a => g a = Some like) src.
Proof.
  induction src as [| a rest IH]; [discriminate |].
  cbn. destruct (g a) as [t |] eqn:E; intros H.
  - injection H as -> _. now left.
  - right. exact (IH H).
Qed.

Lemma zip_maps {A B C} (f : A -> B) (g : A -> C) (l : list A) :
  zip (map f l) (map g l) = map (fun a => (f a, g a)) l.
Proof.
  induction l as [| a l IH]; [reflexivity |].
  cbn [map zip_with]. now rewrite IH.
Qed.

Lemma rows_of_fmap {T} (count : T -> Z) (m : gmap loc T) (p : shared_ptr) :
  rows_of count m p = count <$> (p ≫= fun l => m !! l).
Proof.
  unfold rows_of. destruct p as [l |]; [| reflexivity].
  cbn. destruct (m !! l); reflexivity.
Qed.

Section ConcatField.

Context {T : Type}.
Implicit Types (m d : gmap loc T) (f : Argument -> shared_ptr).

Lemma gather_lookup m (ps : list shared_ptr) :
  Forall (live m) ps ->
  gather m ps = Ok (map (fun p => p ≫= fun l => m !! l) ps).
Proof.
  induction 1 as [| p rest Hl _ IH]; [reflexivity |].
  destruct p as [l |].
  - destruct Hl as [o Ho]. cbn [gather deref map]. rewrite Ho.
    cbn [mbind outcome_bind obind]. rewrite IH. cbn. now rewrite Ho.
  - cbn [gather map]. rewrite IH. reflexivity.
Qed.

Lemma member_weaken d d' (p : shared_ptr) :
  d ⊆ d' -> live d p ->
  live d' p /\ (p ≫= fun l => d' !! l) = (p ≫= fun l => d !! l).
Proof.
  intros Hsub Hl. destruct p as [l |]; [| split; [exact I | reflexivity]].
  destruct Hl as [o Ho]. pose proof (lookup_weaken _ _ _ _ Ho Hsub) as Ho'.
  split; [now exists o |]. cbn. now rewrite Ho, Ho'.
Qed.

(** A member of the result is a new object, or absent; the objects of
    the destination store stay. *)
Lemma concatField_result
  (combine : list (option T * Z) -> outcome (option T)) m d
  (ps : list shared_ptr) (sizes : list Z) (o : option T) :
  Forall (live m) ps ->
  combine (zip (map (fun p => p ≫= fun l => m !! l) ps) sizes) = Ok o ->
  exists p' d',
    concatField combine m d ps sizes = Ok (p', d') /\
    d ⊆ d' /\ live d' p' /\ (p' ≫= fun l => d' !! l) = o /\
    (o = None -> p' = None).
Proof.
  intros Hl Hc. unfold concatField. rewrite (gather_lookup m ps Hl).
  cbn [mbind outcome_bind obind]. rewrite Hc. cbn [mbind outcome_bind obind].
  destruct o as [x |].
  - eexists _, _. split; [reflexivity |].
    assert (d !! fresh (dom d) = None) as Hfresh
      by (apply not_elem_of_dom, is_fresh).
    split; [now apply insert_subseteq |].
    split; [exists x; apply lookup_insert_eq |].
    split; [cbn; apply lookup_insert_eq | discriminate].
  - exists None, d. split; [reflexivity |]. split; [reflexivity |].
    split; [exact I |]. split; reflexivity.
Qed.

End ConcatField.

Section ConcatBlocks.

Context {T : Type}.
Variable count : T -> Z.
Variable blankLike : T -> Z -> T.
Variable appendAll : list T -> outcome T.

(** What the blocks must share to be appended. *)
Variable fits : T -> Prop.

Hypothesis appendAll_total :
  forall os o, appendAll os = Ok o -> count o = total (map count os).
Hypothesis appendAll_ok :
  forall os, Forall fits os -> exists o, appendAll os = Ok o.
Hypothesis blank_count : forall like n, 0 <= n -> count (blankLike like n) = n.
Hypothesis blank_fits : forall like n, fits like -> fits (blankLike like n).

(** The blocks of a member have as many rows together as the sources
    that have the member give, and as the other sources have rows. *)
Lemma concatBlocks_result {A} (g : A -> option T) (size : A -> Z)
  (src : list A) :
  Forall (fun a => 0 <= size a) src ->
  Forall (fun a => forall t, g a = Some t -> fits t) src ->
  exists o,
    concatBlocks blankLike appendAll (map (fun a => (g a, size a)) src)
      = Ok o /\
    count <$> o =
      if any_has g src
      then Some (total (map (fun a => default (size a) (count <$> g a)) src))
      else None.
Proof.
  intros Hsize Hfits. unfold concatBlocks.
  rewrite (any_has_omap g size src).
  destruct (omap fst (map (fun a => (g a, size a)) src))
    as [| like others] eqn:Hom.
  - exists None. split; reflexivity.
  - assert (fits like) as Hlike.
    { apply omap_head_source in Hom. apply Exists_exists in Hom as (a & Ha & E).
      rewrite Forall_forall in Hfits. exact (Hfits a Ha like E). }
    destruct (appendAll_ok
                (map (fun x : option T * Z =>
                        match x.1 with
                        | Some t => t
                        | None => blankLike like x.2
                        end)
                     (map (fun a => (g a, size a)) src))) as [o Ho].
    { rewrite !Forall_map. rewrite Forall_forall in *. intros a Ha. cbn.
      destruct (g a) as [t |] eqn:E;
        [exact (Hfits a Ha t E) | now apply blank_fits]. }
    exists (Some o). split; [rewrite Ho; reflexivity |].
    cbn. f_equal. rewrite (appendAll_total _ _ Ho), !map_map.
    f_equal. apply map_ext_Forall.
    rewrite Forall_forall in *. intros a Ha. cbn.
    destruct (g a) as [t |]; [reflexivity | exact (blank_count _ _ (Hsize a Ha))].
Qed.

(** One member of the result, in every store that extends the store in
    which it was made. *)
Lemma concatField_blocks (m d : gmap loc T) (f : Argument -> shared_ptr)
  (size : Argument -> Z) (src : list Argument) :
  Forall (fun a => live m (f a)) src ->
  Forall (fun a => 0 <= size a) src ->
  Forall (fun a => forall l t, f a = Some l -> m !! l = Some t -> fits t)
         src ->
  exists p' d',
    concatField (concatBlocks blankLike appendAll) m d (map f src)
      (map size src) = Ok (p', d') /\
    d ⊆ d' /\
    forall d'', d' ⊆ d'' ->
      live d'' p' /\
      rows_of count d'' p' =
        if any_has (fun a => rows_of count m (f a)) src
        then Some (total (map (fun a =>
                     default (size a) (rows_of count m (f a))) src))
        else None.
Proof.
  intros Hlive Hsize Hfits.
  destruct (concatBlocks_result (fun a => f a ≫= fun l => m !! l) size src Hsize)
    as (o & Ho & Hrows).
  { eapply Forall_impl; [exact Hfits |]. intros a H t E.
    destruct (f a) as [l |] eqn:Ef; [| discriminate]. exact (H l t Ef E). }
  destruct (concatField_result (concatBlocks blankLike appendAll) m d
              (map f src) (map size src) o) as (p' & d' & E & Sub & L & O & _).
  { now rewrite Forall_map. }
  { rewrite map_map, zip_maps. exact Ho. }
  exists p', d'. split; [exact E |]. split; [exact Sub |].
  intros d'' Sub'. destruct (member_weaken d' d'' p' Sub' L) as [L' O'].
  split; [exact L' |].
  assert (any_has (fun a => f a ≫= fun l => m !! l) src =
          any_has (fun a => rows_of count m (f a)) src) as Hany.
  { apply any_has_ext, Forall_forall. intros a _. rewrite rows_of_fmap.
    symmetry. apply fmap_is_Some. }
  assert (map (fun a => default (size a)
                          (count <$> (f a ≫= fun l => m !! l))) src =
          map (fun a => default (size a) (rows_of count m (f a))) src)
    as Hmap.
  { apply map_ext_Forall, Forall_forall. intros a _.
    now rewrite rows_of_fmap. }
  rewrite rows_of_fmap, O', O, Hrows, Hany, Hmap. reflexivity.
Qed.

End ConcatBlocks.

(** The rows of the first present member, over the sources: [gs] are
    the members in the order of priority, [sz] the batch size of a
    source. *)
Lemma first_present_total {A} (src : list A) (sz : A -> Z)
  (gs : list (A -> option Z)) :
  Forall (fun a => sz a = default 0 (head (omap (fun g => g a) gs))) src ->
  default 0
    (head (omap (fun g : A -> option Z =>
                   if any_has g src
                   then Some (total (map (fun a => default (sz a) (g a)) src))
                   else None) gs))
  = total (map sz src).
Proof.
  induction gs as [| g gs IH]; intros Hsz.
  - change (0 = total (map sz src)).
    induction Hsz as [| a rest Ha _ IHs]; [reflexivity |].
    cbn [map total fold_right]. fold (total (map sz rest)).
    rewrite <- IHs, Ha. reflexivity.
  - cbn. destruct (any_has g src) eqn:Hany.
    + cbn. f_equal. apply map_ext_Forall.
      eapply Forall_impl; [exact Hsz |]. intros a Ha. cbn in Ha.
      destruct (g a) as [n |]; [cbn in *; now rewrite Ha | reflexivity].
    + apply IH. apply any_has_false in Hany.
      rewrite Forall_forall in *. intros a Ha.
      rewrite (Hsz a Ha). cbn. now rewrite (Hany a Ha).
Qed.

(** The members of the result agree on their rows when the members of
    each source do. *)
Lemma rows_agree_total {A} (src : list A) (sz : A -> Z)
  (gs : list (A -> option Z)) :
  Forall (fun a => Forall (fun o => match o with
                                    | Some n => n = sz a
                                    | None => True
                                    end) (map (fun g => g a) gs)) src ->
  Forall (fun o => match o with
                   | Some n => n = total (map sz src)
                   | None => True
                   end)
    (map (fun g : A -> option Z =>
            if any_has g src
            then Some (total (map (fun a => default (sz a) (g a)) src))
            else None) gs).
Proof.
  intros Hall. rewrite Forall_map. apply Forall_forall. intros g Hg.
  destruct (any_has g src); [| exact I].
  f_equal. apply map_ext_Forall.
  eapply Forall_impl; [exact Hall |]. intros a Ha. cbn in Ha.
  rewrite Forall_map, Forall_forall in Ha. specialize (Ha g Hg).
  destruct (g a); [exact Ha | reflexivity].
Qed.

(** ** concat: whole descriptors *)

Section Concat.

Context {real : Type}.
Variable blank : real.
Variable blank_id : Z.

Implicit Types (st : @Store real) (a this : Argument) (src : list Argument).

Lemma length_concat_total {A} (ls : list (list A)) :
  Z.of_nat (length (concat ls)) =
  total (map (fun l => Z.of_nat (length l)) ls).
Proof.
  induction ls as [| l ls IH]; [reflexivity |].
  cbn [concat map total fold_right]. rewrite length_app, Nat2Z.inj_add.
  fold (total (map (fun l => Z.of_nat (length l)) ls)). now rewrite IH.
Qed.

Lemma concatMatrices_total (os : list (@Matrix real)) (o : Matrix) :
  concatMatrices os = Ok o ->
  Matrix_getHeight o = total (map Matrix_getHeight os).
Proof.
  unfold concatMatrices. destruct os as [| m rest].
  - intros [= <-]. reflexivity.
  - destruct (forallb _ rest); [| discriminate]. intros [= <-].
    unfold Matrix_getHeight at 1. cbn [m_rows].
    change (m_rows m ++ concat (map m_rows rest))
      with (concat (map m_rows (m :: rest))).
    rewrite length_concat_total, map_map. reflexivity.
Qed.

Lemma concatIVectors_total (os : list IVector) (o : IVector) :
  concatIVectors os = Ok o ->
  IVector_getSize o = total (map IVector_getSize os).
Proof.
  intros [= <-]. unfold IVector_getSize at 1. cbn [iv_data].
  rewrite length_concat_total, map_map. reflexivity.
Qed.

Lemma concatVectors_total {A} (os : list (list A)) (o : list A) :
  concatVectors os = Ok o ->
  Z.of_nat (length o) = total (map (fun u => Z.of_nat (length u)) os).
Proof. intros [= <-]. apply length_concat_total. Qed.

(** Matrices of one width can be concatenated. *)
Lemma concatMatrices_same_width (w : Z) (os : list (@Matrix real)) :
  Forall (fun m => m_width m = w) os -> exists o, concatMatrices os = Ok o.
Proof.
  intros Hall. unfold concatMatrices.
  destruct Hall as [| m rest Hm Hrest]; [eexists; reflexivity |].
  assert (forallb (fun x => m_width x =? m_width m) rest = true) as ->.
  { apply forallb_forall. intros x Hx.
    rewrite Forall_forall in Hrest. apply list_elem_of_In in Hx.
    rewrite (Hrest x Hx), Hm. apply Z.eqb_refl. }
  eexists; reflexivity.
Qed.

Lemma concatIVectors_ok (os : list IVector) :
  Forall (fun _ => True) os -> exists o, concatIVectors os = Ok o.
Proof. intros _. eexists; reflexivity. Qed.

(** The blocks of integer vectors can always be appended. *)
Lemma concatBlocks_ivectors_ok (blankLike : IVector -> Z -> IVector)
  (xs : list (option IVector * Z)) :
  exists o, concatBlocks blankLike concatIVectors xs = Ok o.
Proof.
  unfold concatBlocks. destruct (omap fst xs); eexists; reflexivity.
Qed.

Lemma concatVectors_ok {A} (os : list (list A)) :
  Forall (fun _ => True) os -> exists o, concatVectors os = Ok o.
Proof. intros _. eexists; reflexivity. Qed.

Lemma blank_rows {A} (n : Z) (x : A) :
  0 <= n -> Z.of_nat (length (replicate (Z.to_nat n) x)) = n.
Proof. intros H. rewrite length_replicate. lia. Qed.

Lemma first_present_rows_nonneg st a : 0 <= first_present_rows st a.
Proof.
  unfold first_present_rows, field_rows, rows_of.
  destruct (value a) as [l |]; simpl;
    [destruct (matrices st !! l); simpl;
     [unfold Matrix_getHeight; lia |] |];
  (destruct (ids a) as [l' |]; simpl;
    [destruct (ivectors st !! l'); simpl;
     [unfold IVector_getSize; lia |] |]);
  (destruct (grad a) as [l'' |]; simpl;
    [destruct (matrices st !! l''); simpl;
     [unfold Matrix_getHeight; lia |] |]);
  (destruct (in_ a) as [l3 |]; simpl;
    [destruct (matrices st !! l3); simpl;
     [unfold Matrix_getHeight; lia |] |]);
  (destruct (udp a) as [l4 |]; simpl;
    [destruct (uvectors st !! l4); simpl; [lia |] |]);
  (destruct (strs a) as [l5 |]; simpl;
    [destruct (svectors st !! l5); simpl; [lia |] |]);
  lia.
Qed.

Lemma total_bounds_each st src (M : Z) :
  total (map (first_present_rows st) src) <= M ->
  Forall (fun a => first_present_rows st a <= M) src.
Proof.
  induction src as [| a rest IH]; intros H; [constructor |].
  cbn [map total fold_right] in H.
  fold (total (map (first_present_rows st) rest)) in H.
  pose proof (first_present_rows_nonneg st a).
  assert (0 <= total (map (first_present_rows st) rest)) as Hnn.
  { clear. induction rest as [| b rest IH]; [cbn; lia |].
    cbn [map total fold_right].
    fold (total (map (first_present_rows st) rest)).
    pose proof (first_present_rows_nonneg st b). lia. }
  constructor; [lia | apply IH; lia].
Qed.

Lemma batchSizes_rows st src :
  Forall (storage_live st) src ->
  Forall (fun a => first_present_rows st a <= INT64_MAX) src ->
  batchSizes st src = Ok (map (first_present_rows st) src).
Proof.
  induction 1 as [| a rest Ha _ IH]; intros Hfit; [reflexivity |].
  apply Forall_cons in Hfit as [Hfa Hfit].
  cbn [batchSizes map]. rewrite (getBatchSize_rows st a Ha Hfa).
  cbn [mbind outcome_bind obind]. now rewrite (IH Hfit).
Qed.

Lemma sequenceCounts_ok st src :
  Forall (handles_live st) src ->
  Forall (fun a => first_present_rows st a <= INT64_MAX) src ->
  exists counts, sequenceCounts st src = Ok counts.
Proof.
  induction 1 as [| a rest Ha _ IH]; intros Hfit; [eexists; reflexivity |].
  apply Forall_cons in Hfit as [Hfa Hfit].
  destruct (IH Hfit) as [counts Hc]. destruct Ha as (Hs & Hq & _).
  assert (exists n, getNumSequences st a = Ok n) as [n Hn].
  { unfold getNumSequences.
    destruct (sequenceStartPositions a) as [l |]; cbn [present].
    - destruct Hq as [v Hv]. cbn [deref]. rewrite Hv. eexists; reflexivity.
    - eexists. exact (getBatchSize_rows st a Hs Hfa). }
  cbn [sequenceCounts]. rewrite Hn. cbn [mbind outcome_bind obind]. rewrite Hc.
  eexists; reflexivity.
Qed.

Lemma concatBoundaries_result {A} (g : A -> option ICpuGpuVector)
  (size : A -> Z) (l : list A) :
  concatBoundaries (map (fun s => (g s, size s)) l) =
  Ok (if any_has g l
      then Some {| cg_data :=
                     concatSeqPos 0 []
                       (map (fun s => (match g s with
                                       | Some v => cg_data v
                                       | None => unitBoundaries (size s)
                                       end, size s)) l);
                   cg_on_host := true; cg_on_device := false |}
      else None).
Proof.
  unfold concatBoundaries. rewrite (any_has_omap g size l).
  destruct (omap fst (map (fun s => (g s, size s)) l)); [reflexivity |].
  rewrite map_map. reflexivity.
Qed.

(** The boundary vector of a source that has one. *)
Lemma boundaries_present st a :
  boundaries st a <> [] ->
  exists v, (sequenceStartPositions a ≫= fun l => cgvectors st !! l) = Some v /\
            cg_data v = boundaries st a.
Proof.
  unfold boundaries. intros H.
  destruct (sequenceStartPositions a ≫= fun l => cgvectors st !! l) as [v |];
    [| contradiction].
  exists v. split; reflexivity.
Qed.

Lemma any_has_live {T} (m : gmap loc T) (f : Argument -> shared_ptr) src :
  Forall (fun a => live m (f a)) src ->
  any_has (fun a => f a ≫= fun l => m !! l) src = any_has f src.
Proof.
  intros Hl. apply any_has_ext. eapply Forall_impl; [exact Hl |].
  intros a H. cbn beta in H. destruct (f a) as [l |]; cbn.
  - destruct H as [v Hv]. rewrite Hv. split; intros _; eexists; reflexivity.
  - split; intros [? E]; discriminate E.
Qed.

Lemma present_member {T} (d : gmap loc T) (p : shared_ptr) (b : bool)
  (x : T) :
  live d p -> (p ≫= fun l => d !! l) = (if b then Some x else None) ->
  present p = b.
Proof.
  intros Hl E. destruct p as [l |]; cbn in *.
  - destruct Hl as [v Hv]. rewrite Hv in E. now destruct b.
  - now destruct b.
Qed.

Lemma Sorted_unit (s len : nat) : Sorted Z.le (map Z.of_nat (seq s len)).
Proof.
  revert s. induction len as [| len IH]; intros s; [constructor |].
  cbn [seq map]. constructor; [apply IH |].
  destruct len; cbn [seq map]; constructor. lia.
Qed.

(** Rows that are a sequence each have well-formed boundaries. *)
Lemma unitBoundaries_boundaries (n : Z) :
  0 <= n -> boundaries_of n (unitBoundaries n).
Proof.
  intros Hn. unfold unitBoundaries. repeat split.
  - rewrite seq_S, map_app. cbn [map]. rewrite last_snoc. f_equal. lia.
  - apply Sorted_unit.
Qed.

(** The result of [concat]: its members own objects of the new store,
    each present member has the rows of the sources that have it and
    blank rows for the others, and the boundary vectors are made of the
    sources' vectors. *)
Lemma Argument_concat_result st this src :
  share_width st src ->
  Forall (descriptor_live st) src ->
  total (map (first_present_rows st) src) <= INT64_MAX ->
  exists r st',
    Argument_concat blank blank_id st this src = Ok (r, st') /\
    storage_live st' r /\
    field_rows st' r =
      map (fun g : Argument -> option Z =>
             if any_has g src
             then Some (total (map (fun a =>
                          default (first_present_rows st a) (g a)) src))
             else None)
          [ (fun a => rows_of Matrix_getHeight (matrices st) (value a));
            (fun a => rows_of IVector_getSize (ivectors st) (ids a));
            (fun a => rows_of Matrix_getHeight (matrices st) (grad a));
            (fun a => rows_of Matrix_getHeight (matrices st) (in_ a));
            (fun a => rows_of (fun u => Z.of_nat (length u)) (uvectors st)
                              (udp a));
            (fun a => rows_of (fun s => Z.of_nat (length s)) (svectors st)
                              (strs a)) ] /\
    (sequenceStartPositions r ≫= fun l => cgvectors st' !! l) =
      (if any_has (fun a => sequenceStartPositions a ≫=
                              fun l => cgvectors st !! l) src
       then Some {| cg_data :=
                      concatSeqPos 0 []
                        (map (fun a =>
                           (match sequenceStartPositions a ≫=
                                    fun l => cgvectors st !! l with
                            | Some v => cg_data v
                            | None => unitBoundaries (first_present_rows st a)
                            end, first_present_rows st a)) src);
                    cg_on_host := true; cg_on_device := false |}
       else None) /\
    present (sequenceStartPositions r) = any_has sequenceStartPositions src /\
    present (subSequenceStartPositions r) =
      any_has subSequenceStartPositions src.
Proof.
  intros (wi & wv & wg & Hwidth) Hlive Htotal.
  assert (Forall (storage_live st) src) as Hstorage.
  { eapply Forall_impl; [exact Hlive |]. now intros a [[H _] _]. }
  pose proof (total_bounds_each st src _ Htotal) as Hfit.
  pose proof (batchSizes_rows st src Hstorage Hfit) as Hsizes.
  destruct (sequenceCounts_ok st src) as [counts Hcounts];
    [eapply Forall_impl; [exact Hlive |]; now intros a [H _] | exact Hfit |].
  assert (Forall (fun a => 0 <= first_present_rows st a) src) as Hnn.
  { apply Forall_forall. intros a _. apply first_present_rows_nonneg. }
  (* the matrices *)
  destruct (concatField_blocks Matrix_getHeight (blankMatrix blank)
              concatMatrices (fun t => m_width t = wi)
              concatMatrices_total (concatMatrices_same_width wi)
              (fun like n => blank_rows n _) (fun like n H => H)
              (matrices st) (matrices st) in_ (first_present_rows st) src)
    as (in' & d1 & Ei & Si & Ri); [| exact Hnn | |].
  { eapply Forall_impl; [exact Hlive |].
    now intros a [[(_ & _ & _ & H & _) _] _]. }
  { eapply Forall_impl; [exact Hwidth |]. now intros a (H & _). }
  destruct (concatField_blocks Matrix_getHeight (blankMatrix blank)
              concatMatrices (fun t => m_width t = wv)
              concatMatrices_total (concatMatrices_same_width wv)
              (fun like n => blank_rows n _) (fun like n H => H)
              (matrices st) d1 value (first_present_rows st) src)
    as (value' & d2 & Ev & Sv & Rv); [| exact Hnn | |].
  { eapply Forall_impl; [exact Hlive |]. now intros a [[(H & _) _] _]. }
  { eapply Forall_impl; [exact Hwidth |]. now intros a (_ & H & _). }
  destruct (concatField_blocks Matrix_getHeight (blankMatrix blank)
              concatMatrices (fun t => m_width t = wg)
              concatMatrices_total (concatMatrices_same_width wg)
              (fun like n => blank_rows n _) (fun like n H => H)
              (matrices st) d2 grad (first_present_rows st) src)
    as (grad' & d3 & Eg & Sg & Rg); [| exact Hnn | |].
  { eapply Forall_impl; [exact Hlive |]. now intros a [[(_ & _ & H & _) _] _]. }
  { eapply Forall_impl; [exact Hwidth |]. now intros a (_ & _ & H). }
  (* the integer vectors *)
  destruct (concatField_blocks IVector_getSize (blankIVector blank_id)
              concatIVectors (fun _ => True)
              concatIVectors_total concatIVectors_ok
              (fun like n => blank_rows n _) (fun like n H => H)
              (ivectors st) (ivectors st) ids (first_present_rows st) src)
    as (ids' & v1 & Ed & Sd & Rd); [| exact Hnn | |].
  { eapply Forall_impl; [exact Hlive |]. now intros a [[(_ & H & _) _] _]. }
  { apply Forall_forall. intros; exact I. }
  destruct (concatBlocks_ivectors_ok (blankIVector blank_id)
              (zip (map (fun p : shared_ptr => p ≫= fun l => ivectors st !! l)
                        (map cpuSequenceDims src)) counts)) as [om Hom].
  destruct (concatField_result
              (concatBlocks (blankIVector blank_id) concatIVectors)
              (ivectors st) v1 (map cpuSequenceDims src) counts om)
    as (dims' & v2 & Em & Sm & Lm & _); [| exact Hom |].
  { rewrite Forall_map. eapply Forall_impl; [exact Hlive |].
    now intros a [_ H]. }
  (* the strings and the user-defined rows *)
  destruct (concatField_blocks (fun s => Z.of_nat (length s)) blankStrs
              concatVectors (fun _ => True)
              concatVectors_total concatVectors_ok
              (fun like n => blank_rows n _) (fun like n H => H)
              (svectors st) (svectors st) strs (first_present_rows st) src)
    as (strs' & ds & Es & Ss & Rs); [| exact Hnn | |].
  { eapply Forall_impl; [exact Hlive |].
    now intros a [[(_ & _ & _ & _ & _ & H) _] _]. }
  { apply Forall_forall. intros; exact I. }
  destruct (concatField_blocks (fun u => Z.of_nat (length u)) blankUdp
              concatVectors (fun _ => True)
              concatVectors_total concatVectors_ok
              (fun like n => blank_rows n _) (fun like n H => H)
              (uvectors st) (uvectors st) udp (first_present_rows st) src)
    as (udp' & du & Eu & Su & Ru); [| exact Hnn | |].
  { eapply Forall_impl; [exact Hlive |].
    now intros a [[(_ & _ & _ & _ & H & _) _] _]. }
  { apply Forall_forall. intros; exact I. }
  (* the boundary vectors *)
  destruct (concatField_result concatBoundaries
              (cgvectors st) (cgvectors st)
              (map sequenceStartPositions src)
              (map (first_present_rows st) src) _
              ltac:(rewrite Forall_map; eapply Forall_impl; [exact Hlive |];
                    now intros a [(_ & H & _) _])
              ltac:(rewrite map_map, zip_maps;
                    apply concatBoundaries_result))
    as (seq' & q1 & Eq & Sq & Lq & Oq & _).
  destruct (concatField_result concatBoundaries
              (cgvectors st) q1
              (map subSequenceStartPositions src)
              (map (first_present_rows st) src) _
              ltac:(rewrite Forall_map; eapply Forall_impl; [exact Hlive |];
                    now intros a [(_ & _ & H) _])
              ltac:(rewrite map_map, zip_maps;
                    apply concatBoundaries_result))
    as (sub' & q2 & Eb & Sb & Lb & Ob & Nb).
  eexists _, _. split.
  { unfold Argument_concat. rewrite Hsizes. cbn [mbind outcome_bind obind].
    rewrite Hcounts. cbn [mbind outcome_bind obind].
    rewrite Ei. cbn [mbind outcome_bind obind].
    rewrite Ev. cbn [mbind outcome_bind obind].
    rewrite Eg. cbn [mbind outcome_bind obind].
    rewrite Ed. cbn [mbind outcome_bind obind].
    rewrite Em. cbn [mbind outcome_bind obind].
    rewrite Es. cbn [mbind outcome_bind obind].
    rewrite Eu. cbn [mbind outcome_bind obind].
    rewrite Eq. cbn [mbind outcome_bind obind].
    rewrite Eb. cbn [mbind outcome_bind obind]. reflexivity. }
  destruct (Ri d3 (transitivity Sv Sg)) as [Li Ri'].
  destruct (Rv d3 Sg) as [Lv Rv'].
  destruct (Rg d3 (reflexivity d3)) as [Lg Rg'].
  destruct (Rd v2 Sm) as [Ld Rd'].
  destruct (Rs ds (reflexivity ds)) as [Ls Rs'].
  destruct (Ru du (reflexivity du)) as [Lu Ru'].
  split; [repeat split; assumption |].
  split.
  { unfold field_rows.
    cbn [value ids grad in_ udp strs matrices ivectors uvectors svectors].
    rewrite Rv', Rd', Rg', Ri', Ru', Rs'. reflexivity. }
  split.
  { cbn [sequenceStartPositions cgvectors].
    rewrite (proj2 (member_weaken q1 q2 seq' Sb Lq)). exact Oq. }
  cbn [sequenceStartPositions subSequenceStartPositions]. split.
  - rewrite <- (any_has_live (cgvectors st) sequenceStartPositions src)
      by (eapply Forall_impl; [exact Hlive |]; now intros a [(_ & H & _) _]).
    exact (present_member q1 seq' _ _ Lq Oq).
  - rewrite <- (any_has_live (cgvectors st) subSequenceStartPositions src)
      by (eapply Forall_impl; [exact Hlive |]; now intros a [(_ & _ & H) _]).
    exact (present_member q2 sub' _ _ Lb Ob).
Qed.

(** The boundary vector of the result when every source has one. *)
Lemma concat_boundaries st st' r src :
  (sequenceStartPositions r ≫= fun l => cgvectors st' !! l) =
    (if any_has (fun a => sequenceStartPositions a ≫=
                            fun l => cgvectors st !! l) src
     then Some {| cg_data :=
                    concatSeqPos 0 []
                      (map (fun a =>
                         (match sequenceStartPositions a ≫=
                                  fun l => cgvectors st !! l with
                          | Some v => cg_data v
                          | None => unitBoundaries (first_present_rows st a)
                          end, first_present_rows st a)) src);
                  cg_on_host := true; cg_on_device := false |}
     else None) ->
  src <> [] ->
  Forall (fun a => boundaries st a <> []) src ->
  boundaries st' r =
    concatSeqPos 0 []
      (map (fun a => (boundaries st a, first_present_rows st a)) src).
Proof.
  intros Hq Hne Hall. unfold boundaries at 1. rewrite Hq.
  rewrite any_has_true.
  - cbn [cg_data]. f_equal. apply map_ext_Forall.
    eapply Forall_impl; [exact Hall |]. intros a Ha.
    destruct (boundaries_present st a Ha) as (v & -> & ->). reflexivity.
  - destruct Hall as [| a rest Ha _]; [contradiction |]. left.
    destruct (boundaries_present st a Ha) as (v & -> & _). now exists v.
Qed.

Lemma boundaries_nonempty (R : Z -> Z -> Prop) (n : Z) (l : list Z) :
  boundaries_by R n l -> l <> [].
Proof. intros (H & _) ->. discriminate. Qed.

(** C8: [concat(src)] of descriptors whose handles own their objects and
    whose matrices have one width per member returns a descriptor whose
    batch size is the total of the sources' batch sizes, whichever
    members each source has; its members agree on their rows when those
    of each source do; it has sub-sequence boundaries, and sequence
    boundaries, exactly when some source has them, and its sequence
    boundaries go from 0 to the new batch size without decreasing when
    those of the sources that have them go from 0 to their batch size.
    When every source has such boundaries, the boundary vector of the
    result is the sources' vectors concatenated with running offset: it
    has one boundary more than the sources have sequences; the boundary
    [j] of source [i] is in it at the place [j] after the sequences of
    the sources before [i], and is there the source's boundary plus the
    rows of the sources before [i]; no other vector of that length has
    this; it starts at 0, ends at the new batch size and never
    decreases, and it increases strictly when the sources' vectors do.
    Two sources of batch sizes 4 and 5 with the boundaries [0,4] and
    [0,5] give batch size 9 and the boundaries [0,4,9]. *)
Theorem concat_whole_descriptors st this src :
  share_width st src ->
  Forall (descriptor_live st) src ->
  total (map (first_present_rows st) src) <= INT64_MAX ->
  exists r st',
    Argument_concat blank blank_id st this src = Ok (r, st') /\
    getBatchSize st' r = Ok (total (map (first_present_rows st) src)) /\
    (Forall (rows_agree st) src -> rows_agree st' r) /\
    hasSubseq r = any_has subSequenceStartPositions src /\
    present (sequenceStartPositions r) = any_has sequenceStartPositions src /\
    (Forall (fun a => present (sequenceStartPositions a) = true ->
                      boundaries_of (first_present_rows st a)
                                    (boundaries st a)) src ->
     present (sequenceStartPositions r) = true ->
     boundaries_of (total (map (first_present_rows st) src))
                   (boundaries st' r)) /\
    (src <> [] ->
     Forall (fun a => boundaries_of (first_present_rows st a)
                                    (boundaries st a)) src ->
     length (boundaries st' r) = S (sequences_of (map (boundaries st) src)) /\
     (forall i a j x,
        src !! i = Some a -> boundaries st a !! j = Some x ->
        boundaries st' r
          !! (sequences_of (map (boundaries st) (take i src)) + j)%nat
        = Some (total (map (first_present_rows st) (take i src)) + x)) /\
     (forall v : list Z,
        length v = length (boundaries st' r) ->
        (forall i a j x,
           src !! i = Some a -> boundaries st a !! j = Some x ->
           v !! (sequences_of (map (boundaries st) (take i src)) + j)%nat
           = Some (total (map (first_present_rows st) (take i src)) + x)) ->
        v = boundaries st' r) /\
     boundaries_of (total (map (first_present_rows st) src))
                   (boundaries st' r) /\
     (Forall (fun a => Sorted Z.lt (boundaries st a)) src ->
      Sorted Z.lt (boundaries st' r))) /\
    (forall a b,
       src = [a; b] ->
       getBatchSize st a = Ok 4 -> getBatchSize st b = Ok 5 ->
       boundaries st a = [0; 4] -> boundaries st b = [0; 5] ->
       getBatchSize st' r = Ok 9 /\ boundaries st' r = [0; 4; 9]).
Proof.
  intros Hwidth Hlive Htotal.
  destruct (Argument_concat_result st this src Hwidth Hlive Htotal)
    as (r & st' & Hc & Hlive' & Hrows & Hq & Hpseq & Hpsub).
  assert (first_present_rows st' r =
          total (map (first_present_rows st) src)) as Hfirst.
  { unfold first_present_rows at 1. rewrite Hrows.
    match goal with
    | |- context [map _ ?gs] =>
        refine (first_present_total src (first_present_rows st) gs _)
    end.
    apply Forall_forall. intros a _. reflexivity. }
  assert (getBatchSize st' r = Ok (total (map (first_present_rows st) src)))
    as Hsize.
  { rewrite <- Hfirst. apply getBatchSize_rows; [exact Hlive' |].
    now rewrite Hfirst. }
  exists r, st'. split; [exact Hc |]. split; [exact Hsize |].
  split; [| split; [exact Hpsub |]; split; [exact Hpseq |]; split; [| split]].
  - intros Hagree. unfold rows_agree. rewrite Hfirst, Hrows.
    match goal with
    | |- context [map _ ?gs] =>
        refine (rows_agree_total src (first_present_rows st) gs _)
    end.
    eapply Forall_impl; [exact Hagree |]. intros a Ha. exact Ha.
  - intros Hseq Hpresent. rewrite Hpseq in Hpresent.
    rewrite <- (any_has_live (cgvectors st) sequenceStartPositions src)
      in Hpresent
      by (eapply Forall_impl; [exact Hlive |]; now intros a [(_ & H & _) _]).
    unfold boundaries at 1. rewrite Hq, Hpresent. cbn [cg_data].
    replace (map (first_present_rows st) src)
      with (map snd
              (map (fun a =>
                 (match sequenceStartPositions a ≫=
                          fun l => cgvectors st !! l with
                  | Some v => cg_data v
                  | None => unitBoundaries (first_present_rows st a)
                  end, first_present_rows st a)) src))
      by (rewrite map_map; reflexivity).
    apply concatSeqPos_boundaries; [intros; lia | |].
    + destruct src; [discriminate Hpresent | discriminate].
    + rewrite Forall_map. eapply Forall_impl; [exact Hseq |].
      intros a Ha. cbn [fst snd].
      pose proof (first_present_rows_nonneg st a) as Hnn.
      unfold boundaries in Ha.
      destruct (sequenceStartPositions a) as [l |]; cbn in *.
      * destruct (cgvectors st !! l) as [v |];
          [exact (Ha eq_refl) | now apply unitBoundaries_boundaries].
      * now apply unitBoundaries_boundaries.
  - intros Hne Hseq.
    assert (Forall (fun a => boundaries st a <> []) src) as Hnonempty.
    { eapply Forall_impl; [exact Hseq |]. intros a Ha.
      exact (boundaries_nonempty _ _ _ Ha). }
    pose proof (concat_boundaries st st' r src Hq Hne Hnonempty) as Hb.
    destruct (concatSeqPos_positions Z.le ltac:(intros; lia)
                (boundaries st) (first_present_rows st) src Hne Hseq)
      as (Hlen & Hpos).
    rewrite <- Hb in Hlen, Hpos.
    split; [exact Hlen |]. split; [exact Hpos |]. split; [| split].
    + intros v Hv Pv.
      apply (positions_determine (boundaries st) (first_present_rows st) src);
        [exact Hne | exact Hnonempty | now rewrite Hv | exact Hlen
        | exact Pv | exact Hpos].
    + rewrite Hb.
      replace (map (first_present_rows st) src)
        with (map snd (map (fun a => (boundaries st a, first_present_rows st a))
                           src))
        by (rewrite map_map; reflexivity).
      apply concatSeqPos_boundaries; [intros; lia | |].
      * destruct src; [contradiction | discriminate].
      * rewrite Forall_map. exact Hseq.
    + intros Hstrict. rewrite Hb.
      refine (proj2 (proj2 (concatSeqPos_boundaries Z.lt ltac:(intros; lia)
                (map (fun a => (boundaries st a, first_present_rows st a))
                     src) _ _))).
      * destruct src; [contradiction | discriminate].
      * rewrite Forall_map. rewrite Forall_forall in *. intros a Ha.
        destruct (Hseq a Ha) as (Hh & Hl & _).
        repeat split; [exact Hh | exact Hl | exact (Hstrict a Ha)].
  - intros a b -> Ha Hb4 Hsa Hsb.
    apply Forall_cons in Hlive as [[[Hla _] _] Hlive].
    apply Forall_cons in Hlive as [[[Hlb _] _] _].
    pose proof (total_bounds_each st _ _ Htotal) as Hfit.
    apply Forall_cons in Hfit as [Hfa Hfit].
    apply Forall_cons in Hfit as [Hfb _].
    rewrite (getBatchSize_rows st a Hla Hfa) in Ha.
    rewrite (getBatchSize_rows st b Hlb Hfb) in Hb4.
    injection Ha as Ha. injection Hb4 as Hb4.
    split.
    + rewrite Hsize. cbn [map total fold_right]. now rewrite Ha, Hb4.
    + rewrite (concat_boundaries st st' r [a; b] Hq).
      * cbn [map]. rewrite Ha, Hb4, Hsa, Hsb. reflexivity.
      * discriminate.
      * repeat constructor; [rewrite Hsa | rewrite Hsb]; discriminate.
Qed.

End Concat.

(** * The properties on the example store *)

(** C5 on a descriptor whose first present field is a value of 4 rows. *)
Lemma getBatchSize_first_present_sample :
  storage_live sample_store sample_a /\
  first_present_rows sample_store sample_a <= INT64_MAX /\
  getBatchSize sample_store sample_a = Ok 4.
Proof.
  assert (storage_live sample_store sample_a) as Hlive
    by (repeat split; solve [exact I | eexists; reflexivity]).
  assert (first_present_rows sample_store sample_a <= INT64_MAX) as Hfit
    by (change (4 <= INT64_MAX); unfold INT64_MAX; lia).
  split; [exact Hlive |]. split; [exact Hfit |].
  exact (proj1 (getBatchSize_first_present sample_store sample_a Hlive Hfit)).
Defined.

(** C7 on a descriptor with the boundaries [0,4]: one sequence. *)
Lemma getNumSequences_sample :
  sequenceStartPositions sample_a = Some 1%positive /\
  cgvectors sample_store !! 1%positive = Some (sample_boundaries 4) /\
  ICpuGpuVector_getSize (sample_boundaries 4) <= INT64_MAX /\
  getNumSequences sample_store sample_a = Ok 1.
Proof.
  split; [reflexivity |]. split; [reflexivity |].
  assert (ICpuGpuVector_getSize (sample_boundaries 4) <= INT64_MAX) as Hfit
    by (change (2 <= INT64_MAX); unfold INT64_MAX; lia).
  split; [exact Hfit |].
  exact (proj1 (getNumSequences_cases sample_store sample_a)
           1%positive (sample_boundaries 4) eq_refl eq_refl Hfit).
Defined.

(** C6 on a descriptor whose boundaries are on the device only: the
    content comes back on the host. *)
Lemma getCpuStartPositions_sample :
  finer_boundaries sample_a = Some 1%positive /\
  cgvectors sample_store !! 1%positive = Some (sample_boundaries 4) /\
  exists st',
    getCpuStartPositions sample_store sample_a = Ok (Host, [0; 4], st').
Proof.
  split; [reflexivity |]. split; [reflexivity |].
  destruct (proj1 (getCpuStartPositions_finer sample_store sample_a)
              1%positive (sample_boundaries 4) eq_refl eq_refl)
    as (st' & H & _).
  exists st'. exact H.
Defined.

(** C6 as stated fails: a default-constructed descriptor has neither
    boundary vector, and the call reports no MissingField error. *)
Lemma getCpuStartPositions_reports_no_error :
  sequenceStartPositions Argument_default = None /\
  subSequenceStartPositions Argument_default = None /\
  getCpuStartPositions (@empty_store Z) Argument_default = Undefined /\
  getCpuStartPositions (@empty_store Z) Argument_default
    <> Failed MissingField.
Proof.
  split; [reflexivity |]. split; [reflexivity |].
  split; [reflexivity |]. discriminate.
Qed.

(** C10 on three descriptors, the second one without value. *)
Lemma sumCosts_sample :
  let arguments := [sample_a; Argument_default; sample_b] in
  let c := {| active_device := 7; issued := [] |} in
  Forall (fun arg => live (matrices sample_store) (value arg)) arguments /\
  sumCosts 0 Z.add sample_getSum sample_store c arguments =
    Ok (27, {| active_device := 7;
               issued := [(1%positive, 0); (2%positive, 1)] |}).
Proof.
  cbv zeta.
  assert (Forall (fun arg => live (matrices sample_store) (value arg))
                 [sample_a; Argument_default; sample_b]) as Hlive
    by (repeat constructor; solve [exact I | eexists; reflexivity]).
  split; [exact Hlive |].
  exact (proj1 (proj2 (proj2
    (sumCosts_sums_present_values 0 Z.add sample_getSum sample_store
       {| active_device := 7; issued := [] |}
       [sample_a; Argument_default; sample_b] Hlive)))).
Defined.

(** C8 on a descriptor with a value of 4 rows and a descriptor with 5
    ids and no value. *)
Lemma concat_whole_descriptors_sample :
  exists r st',
    Argument_concat 0 0 ids_store Argument_default [sample_a; sample_ids] =
      Ok (r, st') /\
    getBatchSize st' r = Ok 9 /\ boundaries st' r = [0; 4; 9] /\
    hasSubseq r = false.
Proof.
  destruct (concat_whole_descriptors 0 0 ids_store Argument_default
              [sample_a; sample_ids])
    as (r & st' & Hc & _ & _ & Hsub & _ & _ & _ & Hex).
  - exists 2, 2, 2. repeat constructor;
      intros l m [= <-] [= <-]; reflexivity.
  - repeat constructor; solve [exact I | eexists; reflexivity].
  - change (9 <= INT64_MAX). unfold INT64_MAX. lia.
  - exists r, st'. split; [exact Hc |].
    split; [| split]; [| | exact Hsub];
      apply (Hex sample_a sample_ids); reflexivity.
Defined.


(** * Further properties of the inline members *)

(** ** Copy and assignment *)

(** X1: the copy constructor reads no member of the raw object; a copy
    of a copy is the copy; a copy is the source itself exactly when the
    source's counters are 0; assigning from a copy is assigning from the
    source; assignment is idempotent, and self-assignment changes
    nothing. *)
Theorem copy_and_assign_compose (raw raw' a b : Argument) :
  copy_construct raw a = copy_construct raw' a /\
  copy_construct raw (copy_construct raw' a) = copy_construct raw a /\
  (copy_construct raw a = a <-> valueCount a = 0 /\ gradCount a = 0) /\
  assign b (copy_construct raw a) = assign b a /\
  assign (assign b a) a = assign b a /\
  assign a a = a.
Proof.
  split; [reflexivity |]. split; [reflexivity |]. split.
  - split.
    + intros H. split.
      * rewrite <- H. reflexivity.
      * rewrite <- H. reflexivity.
    + intros [Hv Hg]. destruct a. cbn in Hv, Hg. subst. reflexivity.
  - split; [reflexivity |]. split; [reflexivity |]. now destruct a.
Qed.

(** X1 on the default descriptor, whose counters are 0. *)
Lemma copy_and_assign_compose_default :
  valueCount Argument_default = 0 /\ gradCount Argument_default = 0 /\
  copy_construct (set_valueCount 5 Argument_default) Argument_default =
    Argument_default.
Proof.
  split; [reflexivity |]. split; [reflexivity |].
  apply (proj1 (proj2 (proj2 (copy_and_assign_compose
                  (set_valueCount 5 Argument_default) Argument_default
                  Argument_default Argument_default)))).
  split; reflexivity.
Defined.

(** X2: a copy is never ready for a consumer, whatever the state of the
    source: [waitValueReady] on it is suspended.  [waitGradReady] on it
    returns at once when the source's [allCount] is 0 and is suspended
    otherwise. *)
Theorem copy_is_not_ready (raw a : Argument) :
  waitValueReady (copy_construct raw a) = Blocked /\
  (allCount a = 0 ->
   waitGradReady (copy_construct raw a) = Ok (copy_construct raw a)) /\
  (allCount a <> 0 -> waitGradReady (copy_construct raw a) = Blocked).
Proof.
  split; [reflexivity |].
  unfold waitGradReady, LockedCondition_wait, gradReady.
  cbn [gradCount allCount copy_construct assign set_valueCount
       set_gradCount set_dataId].
  split.
  - intros ->. reflexivity.
  - intros Hne. destruct (Z.eqb_spec 0 (allCount a)) as [E | _];
      [now symmetry in E |]. reflexivity.
Qed.

(** X2 on a copy of a descriptor that three consumers may read. *)
Lemma copy_is_not_ready_three :
  let a := notifyValueReady (set_allCount 3 Argument_default) in
  allCount a <> 0 /\
  waitValueReady a <> Blocked /\
  waitValueReady (copy_construct Argument_default a) = Blocked /\
  waitGradReady (copy_construct Argument_default a) = Blocked.
Proof.
  cbv zeta. split; [discriminate |]. split; [discriminate |].
  split; [reflexivity |].
  apply (copy_is_not_ready Argument_default
           (notifyValueReady (set_allCount 3 Argument_default))).
  discriminate.
Defined.

(** ** Frame shape *)


(** ** The readiness counters: edges *)

Lemma in_int_between (x y z : Z) :
  in_int x -> in_int z -> x <= y <= z -> in_int y.
Proof. unfold in_int. lia. Qed.

(** X4: [n] waits in a row all return unless the counter starts in
    [0, n): from a counter [v] outside that range they leave [v - n], also
    when [v] is negative; from a counter inside it the wait number
    [v + 1] is suspended. *)
Theorem waitValueReady_times_cases (n : nat) : forall a : Argument,
  in_int (valueCount a) -> in_int (valueCount a - Z.of_nat n) ->
  waitValueReady_times n a =
  if (0 <=? valueCount a) && (valueCount a <? Z.of_nat n)
  then Blocked
  else Ok (set_valueCount (valueCount a - Z.of_nat n) a).
Proof.
  induction n as [| n IH]; intros a Hv Hn.
  - cbn [waitValueReady_times]. rewrite Z.sub_0_r, set_valueCount_same.
    destruct (Z.leb_spec 0 (valueCount a)),
             (Z.ltb_spec (valueCount a) (Z.of_nat 0));
      cbn [andb]; try reflexivity; lia.
  - cbn [waitValueReady_times].
    destruct (Z.eq_dec (valueCount a) 0) as [E0 | Hne].
    + rewrite (waitValueReady_blocked a E0). rewrite E0.
      cbn [mbind outcome_bind obind].
      destruct (Z.ltb_spec 0 (Z.of_nat (S n))) as [_ | H]; [| lia].
      reflexivity.
    + assert (in_int (valueCount a - 1)) as H1.
      { apply (in_int_between (valueCount a - Z.of_nat (S n)) _
                 (valueCount a)); [exact Hn | exact Hv | lia]. }
      rewrite (waitValueReady_ready a Hne H1).
      cbn [mbind outcome_bind obind].
      rewrite IH; cbn [valueCount set_valueCount];
        [| exact H1 | replace (valueCount a - 1 - Z.of_nat n)
                        with (valueCount a - Z.of_nat (S n)) by lia;
                      exact Hn].
      rewrite set_valueCount_twice.
      replace (valueCount a - 1 - Z.of_nat n)
        with (valueCount a - Z.of_nat (S n)) by lia.
      destruct (Z.leb_spec 0 (valueCount a - 1)),
               (Z.leb_spec 0 (valueCount a)),
               (Z.ltb_spec (valueCount a - 1) (Z.of_nat n)),
               (Z.ltb_spec (valueCount a) (Z.of_nat (S n)));
        cbn [andb]; try reflexivity; lia.
Qed.

(** X4 on a counter of -2: five consumers get through. *)
Lemma waitValueReady_times_negative :
  let a := set_valueCount (-2) Argument_default in
  in_int (valueCount a) /\ in_int (valueCount a - Z.of_nat 5) /\
  waitValueReady_times 5 a = Ok (set_valueCount (-7) a).
Proof.
  cbv zeta.
  assert (in_int (valueCount (set_valueCount (-2) Argument_default))) as H1
    by (unfold in_int, INT_MAX; cbn; lia).
  assert (in_int (valueCount (set_valueCount (-2) Argument_default)
                  - Z.of_nat 5)) as H2
    by (unfold in_int, INT_MAX; cbn; lia).
  split; [exact H1 |]. split; [exact H2 |].
  exact (waitValueReady_times_cases 5 _ H1 H2).
Defined.

(** X5: a notify wakes a consumer exactly when [allCount] is not 0.  On a
    descriptor with [allCount = 0], as the default constructor leaves it,
    consumers stay suspended through every notify, while [waitGradReady]
    needs no notify at all. *)
Theorem notify_without_consumers (a : Argument) :
  (waitValueReady (notifyValueReady a) = Blocked <-> allCount a = 0) /\
  (allCount a = 0 -> gradCount a = 0 ->
   waitGradReady a = Ok a /\
   waitValueReady (notifyValueReady (notifyValueReady a)) = Blocked) /\
  waitValueReady (notifyValueReady Argument_default) = Blocked /\
  waitGradReady Argument_default = Ok Argument_default.
Proof.
  assert (waitValueReady (notifyValueReady a) = Blocked <-> allCount a = 0)
    as Hiff.
  { unfold waitValueReady, LockedCondition_wait, valueReady, notifyValueReady,
      LockedCondition_notify_all. cbn [valueCount set_valueCount].
    destruct (Z.eqb_spec (allCount a) 0) as [E | Hne]; cbn [negb].
    - split; [intros _; exact E | reflexivity].
    - split; [discriminate | contradiction]. }
  split; [exact Hiff |]. split; [| split; reflexivity].
  intros Ha Hg. split.
  - unfold waitGradReady, LockedCondition_wait, gradReady.
    rewrite Ha, Hg. cbn. rewrite <- Hg. now rewrite set_gradCount_same.
  - unfold waitValueReady, LockedCondition_wait, valueReady, notifyValueReady,
      LockedCondition_notify_all. cbn [valueCount allCount set_valueCount].
    now rewrite Ha.
Qed.

(** X5 on a descriptor that nobody has called [countIncrement] on. *)
Lemma notify_without_consumers_default :
  allCount Argument_default = 0 /\ gradCount Argument_default = 0 /\
  waitGradReady Argument_default = Ok Argument_default.
Proof.
  split; [reflexivity |]. split; [reflexivity |].
  exact (proj1 (proj1 (proj2 (notify_without_consumers Argument_default))
                  eq_refl eq_refl)).
Defined.

Lemma notifyGradReady_times_any (n : nat) : forall a : Argument,
  in_int (gradCount a) -> gradCount a + Z.of_nat n <= INT_MAX ->
  notifyGradReady_times n a = set_gradCount (gradCount a + Z.of_nat n) a.
Proof.
  induction n as [| n IH]; intros a Hg Hn.
  - cbn. rewrite Z.add_0_r. now rewrite set_gradCount_same.
  - cbn [notifyGradReady_times].
    assert (in_int (gradCount a + 1)) as H1
      by (unfold in_int, INT_MAX in *; lia).
    rewrite (notifyGradReady_increments a H1).
    rewrite IH; cbn [gradCount set_gradCount]; [| exact H1 | lia].
    rewrite set_gradCount_twice. f_equal. lia.
Qed.

(** X6: after [n] contributions [waitGradReady] returns exactly when
    [gradCount] has reached [allCount], and then puts it back to 0; with
    any other number it is suspended.  The predicate is an equality: once
    [gradCount] is above [allCount], one contribution too many, no later
    contribution lets the producer go on. *)
Theorem waitGradReady_after_contributions (n : nat) (a : Argument) :
  in_int (gradCount a) -> gradCount a + Z.of_nat n <= INT_MAX ->
  waitGradReady (notifyGradReady_times n a) =
    (if gradCount a + Z.of_nat n =? allCount a
     then Ok (set_gradCount 0 a) else Blocked) /\
  (allCount a < gradCount a ->
   waitGradReady (notifyGradReady_times n a) = Blocked).
Proof.
  intros Hg Hn.
  assert (waitGradReady (notifyGradReady_times n a) =
          if gradCount a + Z.of_nat n =? allCount a
          then Ok (set_gradCount 0 a) else Blocked) as H.
  { rewrite (notifyGradReady_times_any n a Hg Hn).
    unfold waitGradReady, LockedCondition_wait, gradReady.
    cbn [gradCount allCount set_gradCount].
    destruct (gradCount a + Z.of_nat n =? allCount a); reflexivity. }
  split; [exact H |]. intros Hover. rewrite H.
  destruct (Z.eqb_spec (gradCount a + Z.of_nat n) (allCount a)); [lia |].
  reflexivity.
Qed.

(** X6 on a descriptor with two contributors of which three notify. *)
Lemma waitGradReady_one_too_many :
  let a := notifyGradReady_times 3 (set_allCount 2 Argument_default) in
  in_int (gradCount a) /\ gradCount a + Z.of_nat 4 <= INT_MAX /\
  allCount a < gradCount a /\
  waitGradReady (notifyGradReady_times 4 a) = Blocked.
Proof.
  cbv zeta.
  assert (in_int (gradCount (notifyGradReady_times 3
                               (set_allCount 2 Argument_default)))) as H1
    by (change (in_int 3); unfold in_int, INT_MAX; lia).
  assert (gradCount (notifyGradReady_times 3
                       (set_allCount 2 Argument_default)) + Z.of_nat 4
          <= INT_MAX) as H2 by (change (3 + 4 <= INT_MAX); unfold INT_MAX; lia).
  assert (allCount (notifyGradReady_times 3
                      (set_allCount 2 Argument_default))
          < gradCount (notifyGradReady_times 3
                         (set_allCount 2 Argument_default))) as H3
    by (change (2 < 3); lia).
  split; [exact H1 |]. split; [exact H2 |]. split; [exact H3 |].
  exact (proj2 (waitGradReady_after_contributions 4 _ H1 H2) H3).
Defined.

(** ** Whole passes *)

Lemma forward_pass_result (a : Argument) :
  0 <= allCount a <= INT_MAX ->
  forward_pass a = Ok (set_valueCount 0 a).
Proof.
  intros Hk. unfold forward_pass, notifyValueReady,
    LockedCondition_notify_all.
  rewrite waitValueReady_times_ok by (cbn [valueCount set_valueCount]; lia).
  cbn [valueCount set_valueCount]. rewrite Z2Nat.id, Z.sub_diag by lia.
  reflexivity.
Qed.

Lemma backward_pass_result (a : Argument) :
  0 <= allCount a <= INT_MAX -> gradCount a = 0 ->
  backward_pass a = Ok a.
Proof.
  intros Hk Hg. unfold backward_pass.
  rewrite notifyGradReady_times_count by lia.
  unfold waitGradReady, LockedCondition_wait, gradReady.
  cbn [gradCount allCount set_gradCount]. rewrite Hg, Z.add_0_l.
  rewrite Z2Nat.id by lia. rewrite Z.eqb_refl.
  cbn [mbind outcome_bind obind]. rewrite set_gradCount_twice.
  f_equal. rewrite <- Hg. apply set_gradCount_same.
Qed.

(** X7: a forward half-pass (one notify, [allCount] waits) always ends
    with [valueCount = 0] and changes nothing else, whatever was left of
    the counter before; a backward half-pass that starts with
    [gradCount = 0] gives the descriptor back unchanged.  So any number
    of passes can follow one another on a descriptor that starts with
    both counters at 0. *)
Theorem passes_restore_descriptor (n : nat) (a : Argument) :
  0 <= allCount a <= INT_MAX ->
  forward_pass a = Ok (set_valueCount 0 a) /\
  (gradCount a = 0 -> backward_pass a = Ok a) /\
  (valueCount a = 0 -> gradCount a = 0 -> passes n a = Ok a).
Proof.
  intros Hk. split; [now apply forward_pass_result |].
  split; [now apply backward_pass_result |].
  intros Hv Hg. induction n as [| n IH]; [reflexivity |].
  cbn [passes]. rewrite (forward_pass_result a Hk).
  rewrite <- Hv, set_valueCount_same.
  cbn [mbind outcome_bind obind]. rewrite (backward_pass_result a Hk Hg).
  exact IH.
Qed.

(** One call more at the end of [n] calls. *)
Lemma waitValueReady_times_snoc (n : nat) : forall a : Argument,
  waitValueReady_times (S n) a =
  a' ← waitValueReady_times n a; waitValueReady a'.
Proof.
  induction n as [| n IH]; intros a.
  - cbn [waitValueReady_times mbind outcome_bind obind].
    now destruct (waitValueReady a).
  - change (waitValueReady_times (S (S n)) a)
      with (a' ← waitValueReady a; waitValueReady_times (S n) a').
    cbn [waitValueReady_times].
    destruct (waitValueReady a) as [a1 | | |];
      cbn [mbind outcome_bind obind]; try reflexivity.
    apply IH.
Qed.

Lemma countIncrement_times_allCount (n : nat) : forall a : Argument,
  in_int (allCount a) -> allCount a + Z.of_nat n <= INT_MAX ->
  countIncrement_times n a = set_allCount (allCount a + Z.of_nat n) a.
Proof.
  induction n as [| n IH]; intros a Ha Hn.
  - cbn. rewrite Z.add_0_r. now destruct a.
  - cbn [countIncrement_times]. unfold countIncrement at 1.
    assert (in_int (allCount a + 1)) as H1
      by (unfold in_int, INT_MAX in *; lia).
    rewrite (wrap_int_id _ H1).
    rewrite IH; cbn [allCount set_allCount]; [| exact H1 | lia].
    replace (allCount a + 1 + Z.of_nat n)
      with (allCount a + Z.of_nat (S n)) by lia.
    reflexivity.
Qed.

(** X7 on a descriptor with two consumers, for three passes. *)
Lemma passes_restore_descriptor_two :
  let a := set_allCount 2 Argument_default in
  0 <= allCount a <= INT_MAX /\ valueCount a = 0 /\ gradCount a = 0 /\
  passes 3 a = Ok a.
Proof.
  cbv zeta.
  assert (0 <= allCount (set_allCount 2 Argument_default) <= INT_MAX) as Hk
    by (unfold INT_MAX; cbn; lia).
  split; [exact Hk |]. split; [reflexivity |]. split; [reflexivity |].
  exact (proj2 (proj2 (passes_restore_descriptor 3 _ Hk)) eq_refl eq_refl).
Defined.

(** X8: [k] calls of [countIncrement] on a default-constructed
    descriptor configure it for [k] consumers: [getAllCount] is [k], no
    other member has changed, after one notify exactly [k] waits return
    and the next one is suspended. *)
Theorem countIncrement_configures (k : nat) :
  Z.of_nat k <= INT_MAX ->
  let a := countIncrement_times k Argument_default in
  getAllCount a = Z.of_nat k /\
  a = set_allCount (Z.of_nat k) Argument_default /\
  waitValueReady_times k (notifyValueReady a) = Ok a /\
  waitValueReady_times (S k) (notifyValueReady a) = Blocked.
Proof.
  intros Hk a.
  assert (a = set_allCount (Z.of_nat k) Argument_default) as Ha.
  { subst a. rewrite countIncrement_times_allCount;
      [reflexivity | unfold in_int, INT_MAX; cbn; lia | cbn; lia]. }
  rewrite Ha. split; [reflexivity |]. split; [reflexivity |].
  assert (waitValueReady_times k
            (notifyValueReady (set_allCount (Z.of_nat k) Argument_default)) =
          Ok (set_allCount (Z.of_nat k) Argument_default)) as Hall.
  { rewrite waitValueReady_times_ok by (cbn; lia).
    cbn [valueCount notifyValueReady LockedCondition_notify_all
         set_valueCount set_allCount allCount Argument_default].
    now rewrite Z.sub_diag. }
  split; [exact Hall |].
  rewrite waitValueReady_times_snoc, Hall. reflexivity.
Qed.

(** X8 for three consumers. *)
Lemma countIncrement_configures_three :
  Z.of_nat 3 <= INT_MAX /\
  getAllCount (countIncrement_times 3 Argument_default) = 3.
Proof.
  assert (Z.of_nat 3 <= INT_MAX) as H by (unfold INT_MAX; lia).
  split; [exact H |]. exact (proj1 (countIncrement_configures 3 H)).
Defined.

(** ** Consumers in other numbers than [allCount] *)

Lemma run_app (s1 s2 : list nat) : forall s : system,
  run (s1 ++ s2) s = run s1 s ≫= run s2.
Proof.
  induction s1 as [| i s1 IH]; intros s; [reflexivity |].
  cbn [app run]. destruct (thread_step i s) as [s' |]; [apply IH |].
  reflexivity.
Qed.

Lemma insert_middle (pre post : list waiter) (x y : waiter) :
  <[length pre := y]> (pre ++ x :: post) = pre ++ y :: post.
Proof.
  induction pre as [| p pre IH]; [reflexivity |].
  cbn [length app]. change (<[S (length pre) := y]> (p :: pre ++ x :: post))
    with (p :: <[length pre := y]> (pre ++ x :: post)).
  now rewrite IH.
Qed.

(** The first half of the schedule: one after the other the consumers
    pass the wait, which changes nothing in the descriptor. *)
Lemma run_wake_phase (m : nat) : forall (pre : list waiter) (a : Argument),
  valueCount a <> 0 ->
  run (seq (length pre) m)
      {| shared := a; waiters := pre ++ replicate m AtWait |} =
  Some {| shared := a; waiters := pre ++ replicate m AtDecrement |}.
Proof.
  induction m as [| m IH]; intros pre a Hne; [reflexivity |].
  cbn [seq run replicate]. unfold thread_step. cbn [shared waiters].
  rewrite list_lookup_middle by reflexivity.
  unfold LockedCondition_wait, valueReady.
  destruct (Z.eqb_spec (valueCount a) 0) as [E | _]; [contradiction |].
  cbn [negb]. rewrite insert_middle.
  replace (S (length pre)) with (length (pre ++ [AtDecrement]))
    by (rewrite length_app; cbn; lia).
  replace (pre ++ AtDecrement :: replicate m AtWait)
    with ((pre ++ [AtDecrement]) ++ replicate m AtWait)
    by now rewrite <- app_assoc.
  rewrite (IH _ a Hne). now rewrite <- app_assoc.
Qed.

(** The second half: one after the other they decrement. *)
Lemma run_decrement_phase (m : nat) :
  forall (pre : list waiter) (a : Argument),
  in_int (valueCount a) -> in_int (valueCount a - Z.of_nat m) ->
  run (seq (length pre) m)
      {| shared := a; waiters := pre ++ replicate m AtDecrement |} =
  Some {| shared := set_valueCount (valueCount a - Z.of_nat m) a;
          waiters := pre ++ replicate m Returned |}.
Proof.
  induction m as [| m IH]; intros pre a Hv Hm.
  - cbn [seq run replicate]. rewrite Z.sub_0_r. now rewrite set_valueCount_same.
  - cbn [seq run replicate]. unfold thread_step. cbn [shared waiters].
    rewrite list_lookup_middle by reflexivity. rewrite insert_middle.
    assert (in_int (valueCount a - 1)) as H1.
    { apply (in_int_between (valueCount a - Z.of_nat (S m)) _
               (valueCount a)); [exact Hm | exact Hv | lia]. }
    unfold decrementValueCount. rewrite (wrap_int_id _ H1).
    replace (S (length pre)) with (length (pre ++ [Returned]))
      by (rewrite length_app; cbn; lia).
    replace (pre ++ Returned :: replicate m AtDecrement)
      with ((pre ++ [Returned]) ++ replicate m AtDecrement)
      by now rewrite <- app_assoc.
    rewrite IH; cbn [valueCount set_valueCount];
      [| exact H1
       | replace (valueCount a - 1 - Z.of_nat m)
           with (valueCount a - Z.of_nat (S m)) by lia; exact Hm].
    rewrite set_valueCount_twice, <- app_assoc.
    replace (valueCount a - 1 - Z.of_nat m)
      with (valueCount a - Z.of_nat (S m)) by lia.
    reflexivity.
Qed.

(** X9: the wait and the decrement of [waitValueReady] are two critical
    sections, so the counter does not bound the number of consumers that
    get through: when [n] consumers all pass the wait before the first of
    them decrements, all [n] return, whatever [n] is, and the counter
    ends at [valueCount - n], below 0 when there were more consumers than
    units. *)
Theorem consumers_that_all_wake_first (n : nat) (a : Argument) :
  valueCount a <> 0 ->
  in_int (valueCount a) -> in_int (valueCount a - Z.of_nat n) ->
  run (all_wake_then_decrement n) (consumers a n) =
  Some {| shared := set_valueCount (valueCount a - Z.of_nat n) a;
          waiters := replicate n Returned |}.
Proof.
  intros Hne Hv Hn. unfold all_wake_then_decrement, consumers.
  rewrite run_app.
  pose proof (run_wake_phase n [] a Hne) as Hw.
  pose proof (run_decrement_phase n [] a Hv Hn) as Hd.
  cbn [length app] in Hw, Hd. rewrite Hw. exact Hd.
Qed.

(** X9 on a notify for two consumers that five consumers wait for. *)
Lemma consumers_that_all_wake_first_five :
  let a := notifyValueReady (set_allCount 2 Argument_default) in
  valueCount a <> 0 /\ in_int (valueCount a) /\
  in_int (valueCount a - Z.of_nat 5) /\
  exists s, run (all_wake_then_decrement 5) (consumers a 5) = Some s /\
            valueCount (shared s) = -3.
Proof.
  cbv zeta.
  assert (valueCount (notifyValueReady (set_allCount 2 Argument_default))
          <> 0) as H0 by discriminate.
  assert (in_int (valueCount
                    (notifyValueReady (set_allCount 2 Argument_default))))
    as H1 by (change (in_int 2); unfold in_int, INT_MAX; lia).
  assert (in_int (valueCount
                    (notifyValueReady (set_allCount 2 Argument_default))
                  - Z.of_nat 5))
    as H2 by (change (in_int (-3)); unfold in_int, INT_MAX; lia).
  split; [exact H0 |]. split; [exact H1 |]. split; [exact H2 |].
  eexists. split; [exact (consumers_that_all_wake_first 5 _ H0 H1 H2) |].
  reflexivity.
Defined.

Lemma pending_le_length (ws : list waiter) :
  pending ws <= Z.of_nat (length ws).
Proof.
  unfold pending. induction ws as [| w ws IH]; [cbn; lia |].
  cbn [weigh length]. destruct w; lia.
Qed.

Lemma thread_step_counting_spare (spare : Z) (i : nat) (s s' : system) :
  counting_spare spare s -> thread_step i s = Some s' ->
  counting_spare spare s' /\
  S (sections_left (waiters s')) = sections_left (waiters s).
Proof.
  intros (Hsp & Hval & Hmax) Hstep. unfold thread_step in Hstep.
  destruct (waiters s !! i) as [[| |] |] eqn:Hi; try discriminate.
  - unfold LockedCondition_wait in Hstep.
    destruct (valueReady (shared s)); [| discriminate].
    injection Hstep as <-. unfold counting_spare. cbn [shared waiters].
    pose proof (pending_insert _ _ _ AtDecrement Hi) as Hp.
    pose proof (sections_left_insert _ _ _ AtDecrement Hi) as Hs.
    change (pending [AtWait]) with 1 in Hp.
    change (pending [AtDecrement]) with 1 in Hp.
    change (sections_left [AtWait]) with 2%nat in Hs.
    change (sections_left [AtDecrement]) with 1%nat in Hs.
    split; [| lia]. repeat split; [assumption | lia | assumption].
  - injection Hstep as <-. unfold counting_spare. cbn [shared waiters].
    pose proof (pending_insert _ _ _ Returned Hi) as Hp.
    pose proof (sections_left_insert _ _ _ Returned Hi) as Hs.
    change (pending [AtDecrement]) with 1 in Hp.
    change (pending [Returned]) with 0 in Hp.
    pose proof (pending_nonneg (<[i:=Returned]> (waiters s))) as Hnn.
    change (sections_left [AtDecrement]) with 1%nat in Hs.
    change (sections_left [Returned]) with 0%nat in Hs.
    split; [| lia].
    unfold decrementValueCount. cbn [allCount valueCount set_valueCount].
    rewrite wrap_int_id by (unfold in_int, INT_MAX in *; lia).
    repeat split; [assumption | lia | lia].
Qed.

Lemma nsteps_counting_spare (spare : Z) (m : nat) (s s' : system) :
  counting_spare spare s -> nsteps step m s s' ->
  counting_spare spare s' /\
  (sections_left (waiters s') + m = sections_left (waiters s))%nat.
Proof.
  intros Hc Hn. induction Hn as [s | m s t u [i Hst] _ IH].
  - split; [assumption | lia].
  - destruct (thread_step_counting_spare spare i s t Hc Hst) as [Hc' Hm].
    destruct (IH Hc') as [Hc'' Hm']. split; [assumption | lia].
Qed.

(** X10: when at most as many consumers wait as units were notified,
    [n <= k], no interleaving of their critical sections suspends any of
    them for good or takes the counter out of [k - n .. k]: in every
    reachable state the counter is [k - n] plus the number of consumers
    that have not returned, a consumer that has not returned can move or
    another one can, and after exactly [2 * n] critical sections all have
    returned and [k - n] units are left. *)
Theorem at_most_allCount_consumers (a : Argument) (k n : nat) :
  Z.of_nat k <= INT_MAX -> (n <= k)%nat ->
  valueCount a = Z.of_nat k ->
  forall (m : nat) (s : system),
    nsteps step m (consumers a n) s ->
    valueCount (shared s) = Z.of_nat k - Z.of_nat n + pending (waiters s) /\
    Z.of_nat k - Z.of_nat n <= valueCount (shared s) <= Z.of_nat k /\
    (m <= 2 * n)%nat /\
    (~ all_returned s -> exists s', step s s') /\
    (all_returned s ->
       m = (2 * n)%nat /\ valueCount (shared s) = Z.of_nat k - Z.of_nat n).
Proof.
  intros Hk Hnk Hv m s Hsteps.
  assert (counting_spare (Z.of_nat k - Z.of_nat n) (consumers a n)) as Hc0.
  { unfold counting_spare, consumers. cbn [shared waiters].
    rewrite pending_replicate. lia. }
  destruct (nsteps_counting_spare _ _ _ _ Hc0 Hsteps) as [(Hsp & Hval & Hmax) Hm].
  pose proof (nsteps_length _ _ _ Hsteps) as Hlen.
  cbn [consumers waiters] in Hm, Hlen.
  rewrite sections_left_replicate in Hm. rewrite length_replicate in Hlen.
  pose proof (pending_nonneg (waiters s)) as Hnn.
  pose proof (pending_le_length (waiters s)) as Hle. rewrite Hlen in Hle.
  split; [exact Hval |]. split; [lia |]. split; [lia |]. split.
  - intros Hnot.
    assert (0 < pending (waiters s)) as Hpos.
    { destruct (Z.eq_dec (pending (waiters s)) 0) as [E | E]; [| lia].
      exfalso. apply Hnot. now apply pending_zero_all_returned. }
    destruct (pending_positive_lookup _ Hpos) as (i & w & Hi & Hw).
    unfold step, thread_step.
    destruct w; [| | contradiction].
    + exists {| shared := shared s;
                waiters := <[i := AtDecrement]> (waiters s) |}, i.
      rewrite Hi. unfold LockedCondition_wait, valueReady.
      destruct (Z.eqb_spec (valueCount (shared s)) 0) as [E | _]; [lia |].
      reflexivity.
    + eexists. exists i. rewrite Hi. reflexivity.
  - intros Hret.
    rewrite (all_returned_sections_left _ Hret) in Hm.
    split; [lia |].
    rewrite Hval. apply pending_zero_all_returned in Hret. lia.
Qed.

(** X10 on three units and two consumers, one of which has passed the
    wait. *)
Lemma at_most_allCount_consumers_two_of_three :
  let a := notifyValueReady (set_allCount 3 Argument_default) in
  exists s,
    Z.of_nat 3 <= INT_MAX /\ (2 <= 3)%nat /\ valueCount a = Z.of_nat 3 /\
    nsteps step 1 (consumers a 2) s /\
    Z.of_nat 3 - Z.of_nat 2 <= valueCount (shared s) <= Z.of_nat 3.
Proof.
  cbv zeta.
  exists {| shared := notifyValueReady (set_allCount 3 Argument_default);
            waiters := [AtDecrement; AtWait] |}.
  assert (Z.of_nat 3 <= INT_MAX) as Hk by (unfold INT_MAX; lia).
  assert (nsteps step 1
            (consumers (notifyValueReady (set_allCount 3 Argument_default))
                       2)
            {| shared := notifyValueReady (set_allCount 3 Argument_default);
               waiters := [AtDecrement; AtWait] |}) as Hs.
  { eapply nsteps_l; [| apply nsteps_O]. exists 0%nat. reflexivity. }
  split; [exact Hk |]. split; [lia |]. split; [reflexivity |].
  split; [exact Hs |].
  exact (proj1 (proj2 (at_most_allCount_consumers
                         (notifyValueReady (set_allCount 3 Argument_default))
                         3 2 Hk (le_S 2 2 (le_n 2))
                         (eq_refl : valueCount (notifyValueReady
                                      (set_allCount 3 Argument_default))
                                    = Z.of_nat 3)
                         1%nat _ Hs))).
Defined.

(** ** The two directions of a pass *)

Section Independence.

Context {real : Type}.
Implicit Types (st : @Store real) (a : Argument).

(** X11: the forward and the backward counter do not interfere: the
    notifies commute, a wait on one side returns or is suspended
    whatever happened on the other side, and none of the four members
    changes [allCount] or what the size queries return. *)
Theorem value_and_grad_sides_independent st a :
  notifyGradReady (notifyValueReady a) =
    notifyValueReady (notifyGradReady a) /\
  waitValueReady (notifyGradReady a) =
    outcome_map notifyGradReady (waitValueReady a) /\
  waitGradReady (notifyValueReady a) =
    outcome_map notifyValueReady (waitGradReady a) /\
  (forall a',
     a' = notifyValueReady a \/ a' = notifyGradReady a \/
     waitValueReady a = Ok a' \/ waitGradReady a = Ok a' ->
     allCount a' = allCount a /\
     getBatchSize st a' = getBatchSize st a /\
     getNumSequences st a' = getNumSequences st a /\
     getNumSubSequences st a' = getNumSubSequences st a /\
     getCpuStartPositions st a' = getCpuStartPositions st a).
Proof.
  split; [reflexivity |]. split; [| split].
  - unfold waitValueReady, LockedCondition_wait, valueReady, notifyGradReady,
      LockedCondition_notify_all. cbn [valueCount set_gradCount].
    destruct (negb (valueCount a =? 0)); reflexivity.
  - unfold waitGradReady, LockedCondition_wait, gradReady, notifyValueReady,
      LockedCondition_notify_all. cbn [gradCount allCount set_valueCount].
    destruct (gradCount a =? allCount a); reflexivity.
  - intros a' [-> | [-> | [H | H]]].
    + repeat split.
    + repeat split.
    + unfold waitValueReady, LockedCondition_wait in H.
      destruct (valueReady a); [| discriminate].
      injection H as <-. repeat split.
    + unfold waitGradReady, LockedCondition_wait in H.
      destruct (gradReady a); [| discriminate].
      injection H as <-. repeat split.
Qed.

End Independence.

(** X11 on the first consumer of the example descriptor. *)
Lemma value_and_grad_sides_independent_sample :
  let a := notifyValueReady (set_allCount 2 sample_a) in
  exists a',
    waitValueReady a = Ok a' /\
    getBatchSize sample_store a' = getBatchSize sample_store a.
Proof.
  cbv zeta. eexists. split; [reflexivity |].
  refine (proj1 (proj2 (proj2 (proj2 (proj2
            (value_and_grad_sides_independent sample_store
               (notifyValueReady (set_allCount 2 sample_a))))) _ _))).
  right. right. left. reflexivity.
Defined.


(** ** Size queries: further properties *)

Section MoreQueries.

Context {real : Type}.
Implicit Types (st : @Store real) (a : Argument).

(** X12: with sub-sequence boundaries present [getNumSubSequences] is
    their length minus 1, which is -1 for an empty vector and does not
    depend on any other member; without them it is [getBatchSize]. *)
Theorem getNumSubSequences_cases st a :
  (forall (l : loc) (v : ICpuGpuVector),
     subSequenceStartPositions a = Some l ->
     cgvectors st !! l = Some v ->
     ICpuGpuVector_getSize v <= INT64_MAX ->
     getNumSubSequences st a = Ok (ICpuGpuVector_getSize v - 1) /\
     (cg_data v = [] -> getNumSubSequences st a = Ok (-1))) /\
  (subSequenceStartPositions a = None ->
   getNumSubSequences st a = getBatchSize st a).
Proof.
  unfold getNumSubSequences. split.
  - intros l v Hp Hl Hfit. rewrite Hp. cbn [present]. unfold deref.
    rewrite Hl. cbn [mbind outcome_bind obind].
    assert (to_int64 (wrap_size_t (ICpuGpuVector_getSize v - 1)) =
            ICpuGpuVector_getSize v - 1) as ->.
    { apply size_minus_one.
      unfold ICpuGpuVector_getSize, INT64_MAX in *. lia. }
    split; [reflexivity |].
    intros E. unfold ICpuGpuVector_getSize. now rewrite E.
  - intros ->. reflexivity.
Qed.

Lemma size_after_host_copy (m : gmap loc ICpuGpuVector) (l : loc)
  (v v' : ICpuGpuVector) (p : shared_ptr) :
  m !! l = Some v -> cg_data v' = cg_data v ->
  outcome_map ICpuGpuVector_getSize (deref (<[l := v']> m) p) =
  outcome_map ICpuGpuVector_getSize (deref m p).
Proof.
  intros Hl Hd. destruct p as [l' |]; [| reflexivity].
  unfold deref. destruct (decide (l = l')) as [<- | Hne].
  - rewrite lookup_insert_eq, Hl. cbn. unfold ICpuGpuVector_getSize.
    now rewrite Hd.
  - now rewrite lookup_insert_ne.
Qed.

Lemma getNumSequences_via_size st a :
  getNumSequences st a =
  if present (sequenceStartPositions a)
  then outcome_map (fun n => to_int64 (wrap_size_t (n - 1)))
         (outcome_map ICpuGpuVector_getSize
            (deref (cgvectors st) (sequenceStartPositions a)))
  else getBatchSize st a.
Proof.
  unfold getNumSequences.
  destruct (present (sequenceStartPositions a)); [| reflexivity].
  destruct (deref (cgvectors st) (sequenceStartPositions a)); reflexivity.
Qed.

Lemma getNumSubSequences_via_size st a :
  getNumSubSequences st a =
  if present (subSequenceStartPositions a)
  then outcome_map (fun n => to_int64 (wrap_size_t (n - 1)))
         (outcome_map ICpuGpuVector_getSize
            (deref (cgvectors st) (subSequenceStartPositions a)))
  else getBatchSize st a.
Proof.
  unfold getNumSubSequences.
  destruct (present (subSequenceStartPositions a)); [| reflexivity].
  destruct (deref (cgvectors st) (subSequenceStartPositions a)); reflexivity.
Qed.

Lemma getCpuStartPositions_at st a (l : loc) :
  finer_boundaries a = Some l ->
  getCpuStartPositions st a = getData_at st (Some l).
Proof.
  unfold getCpuStartPositions, hasSubseq, finer_boundaries.
  destruct (subSequenceStartPositions a) as [l' |]; cbn [present].
  - now intros [= ->].
  - now intros ->.
Qed.

(** X13: the vector that [getCpuStartPositions] returns has one entry
    more than the finer of the two counts: [getNumSubSequences] with
    sub-sequences, [getNumSequences] without.  The call changes none of
    the three size queries, and a second call returns the same data and
    leaves the store as the first call left it. *)
Theorem getCpuStartPositions_length st a (l : loc) (v : ICpuGpuVector) :
  finer_boundaries a = Some l ->
  cgvectors st !! l = Some v ->
  ICpuGpuVector_getSize v <= INT64_MAX ->
  exists st',
    getCpuStartPositions st a = Ok (Host, cg_data v, st') /\
    (if hasSubseq a then getNumSubSequences st a else getNumSequences st a)
      = Ok (Z.of_nat (length (cg_data v)) - 1) /\
    getBatchSize st' a = getBatchSize st a /\
    getNumSequences st' a = getNumSequences st a /\
    getNumSubSequences st' a = getNumSubSequences st a /\
    getCpuStartPositions st' a = Ok (Host, cg_data v, st').
Proof.
  intros Hf Hl Hfit. eexists.
  rewrite (getCpuStartPositions_at st a l Hf), (getData_at_host st l v Hl).
  split; [reflexivity |].
  assert (to_int64 (wrap_size_t (ICpuGpuVector_getSize v - 1)) =
          Z.of_nat (length (cg_data v)) - 1) as Hsize.
  { rewrite size_minus_one; [reflexivity |].
    unfold ICpuGpuVector_getSize, INT64_MAX in *. lia. }
  split.
  { unfold hasSubseq, finer_boundaries, getNumSubSequences, getNumSequences
      in *.
    destruct (subSequenceStartPositions a) as [l' |]; cbn [present].
    - injection Hf as ->. unfold deref. rewrite Hl.
      cbn [mbind outcome_bind obind]. now rewrite Hsize.
    - rewrite Hf. cbn [present]. unfold deref. rewrite Hl.
      cbn [mbind outcome_bind obind]. now rewrite Hsize. }
  split; [reflexivity |].
  split.
  { rewrite !getNumSequences_via_size. cbn [cgvectors set_cgvectors].
    erewrite size_after_host_copy; [reflexivity | exact Hl | reflexivity]. }
  split.
  { rewrite !getNumSubSequences_via_size. cbn [cgvectors set_cgvectors].
    erewrite size_after_host_copy; [reflexivity | exact Hl | reflexivity]. }
  rewrite (getCpuStartPositions_at _ a l Hf).
  unfold getData_at. cbn [cgvectors set_cgvectors].
  rewrite lookup_insert_eq. cbn [ICpuGpuVector_getData cg_data cg_on_host
    cg_on_device]. rewrite insert_insert_eq. reflexivity.
Qed.

Lemma strictly_sorted_length (l : list Z) : forall x y : Z,
  Sorted Z.lt (x :: l) -> last (x :: l) = Some y ->
  x + Z.of_nat (length l) <= y.
Proof.
  induction l as [| h t IH]; intros x y Hs Hl.
  - cbn in Hl. injection Hl as <-. cbn. lia.
  - apply Sorted_inv in Hs as [Hs Hd]. apply HdRel_inv in Hd.
    specialize (IH h y Hs Hl). cbn [length]. lia.
Qed.

(** X14: for a descriptor that keeps the contract of
    [sequenceStartPositions] (first position 0, last position the batch
    size) and has no empty sequence, the number of sequences is between
    0 and the batch size. *)
Theorem getNumSequences_at_most_batch st a (l : loc) (v : ICpuGpuVector) :
  sequenceStartPositions a = Some l ->
  cgvectors st !! l = Some v ->
  storage_live st a ->
  first_present_rows st a <= INT64_MAX ->
  boundaries_by Z.lt (first_present_rows st a) (cg_data v) ->
  exists n b,
    getNumSequences st a = Ok n /\ getBatchSize st a = Ok b /\
    n = Z.of_nat (length (cg_data v)) - 1 /\ 0 <= n <= b.
Proof.
  intros Hp Hl Hlive Hfit (Hh & Hlast & Hs).
  destruct (cg_data v) as [| x t] eqn:Hd; [discriminate |].
  cbn in Hh. injection Hh as ->.
  pose proof (strictly_sorted_length t 0 _ Hs Hlast) as Hlen.
  exists (Z.of_nat (length (0 :: t)) - 1), (first_present_rows st a).
  split.
  - unfold getNumSequences. rewrite Hp. cbn [present]. unfold deref.
    rewrite Hl. cbn [mbind outcome_bind obind]. f_equal.
    unfold ICpuGpuVector_getSize. rewrite Hd. apply size_minus_one.
    cbn [length] in *. unfold INT64_MAX in *. lia.
  - split; [now apply getBatchSize_rows |].
    split; [reflexivity |]. cbn [length]. lia.
Qed.

(** X15: a copy and an assigned descriptor answer every query as the
    source does, because they hold the source's handles; and the host
    copy of the boundaries that a query through the copy makes is there
    for the source as well. *)
Theorem copies_share_storage st (raw b a : Argument) :
  (forall c, c = copy_construct raw a \/ c = assign b a ->
     getBatchSize st c = getBatchSize st a /\
     getNumSequences st c = getNumSequences st a /\
     getNumSubSequences st c = getNumSubSequences st a /\
     hasSubseq c = hasSubseq a /\
     getCpuStartPositions st c = getCpuStartPositions st a) /\
  (forall r d st' l,
     getCpuStartPositions st (copy_construct raw a) = Ok (r, d, st') ->
     finer_boundaries a = Some l ->
     exists v', cgvectors st' !! l = Some v' /\ cg_on_host v' = true /\
                cg_data v' = d /\
                getCpuStartPositions st' a = Ok (r, d, st')).
Proof.
  split; [intros c [-> | ->]; repeat split |].
  intros r d st' l H Hf.
  change (getCpuStartPositions st a = Ok (r, d, st')) in H.
  rewrite (getCpuStartPositions_at st a l Hf) in H.
  rewrite (getCpuStartPositions_at st' a l Hf).
  unfold getData_at in H.
  destruct (cgvectors st !! l) as [v |] eqn:Hl; [| discriminate].
  cbn [ICpuGpuVector_getData] in H. injection H as <- <- <-.
  eexists. cbn [cgvectors set_cgvectors]. rewrite lookup_insert_eq.
  split; [reflexivity |]. split; [reflexivity |]. split; [reflexivity |].
  unfold getData_at. cbn [cgvectors set_cgvectors].
  rewrite lookup_insert_eq. cbn [ICpuGpuVector_getData cg_data cg_on_host
    cg_on_device]. now rewrite insert_insert_eq.
Qed.

(** X16: a descriptor without storage members and without boundaries, as
    the default constructor makes it, is a batch of no rows and no
    sequences in every store. *)
Theorem empty_descriptor_sizes st a :
  value a = None -> ids a = None -> grad a = None -> in_ a = None ->
  udp a = None -> strs a = None ->
  sequenceStartPositions a = None -> subSequenceStartPositions a = None ->
  getBatchSize st a = Ok 0 /\ getNumSequences st a = Ok 0 /\
  getNumSubSequences st a = Ok 0 /\ hasSubseq a = false /\
  getBatchSize st Argument_default = Ok 0 /\
  getNumSequences st Argument_default = Ok 0 /\
  getNumSubSequences st Argument_default = Ok 0.
Proof.
  intros H1 H2 H3 H4 H5 H6 H7 H8.
  assert (getBatchSize st a = Ok 0) as Hb
    by (unfold getBatchSize; now rewrite H1, H2, H3, H4, H5, H6).
  unfold getNumSequences, getNumSubSequences, hasSubseq.
  rewrite H7, H8, Hb. cbn [present]. repeat split.
Qed.

End MoreQueries.

(** X12 on the nested example: three sub-sequences. *)
Lemma getNumSubSequences_nested :
  subSequenceStartPositions nested_argument = Some 2%positive /\
  ICpuGpuVector_getSize
    {| cg_data := [0; 2; 4; 6]; cg_on_host := false; cg_on_device := true |}
    <= INT64_MAX /\
  getNumSubSequences nested_store nested_argument = Ok 3.
Proof.
  assert (ICpuGpuVector_getSize
            {| cg_data := [0; 2; 4; 6]; cg_on_host := false;
               cg_on_device := true |} <= INT64_MAX) as Hfit
    by (change (4 <= INT64_MAX); unfold INT64_MAX; lia).
  split; [reflexivity |]. split; [exact Hfit |].
  exact (proj1 (proj1 (getNumSubSequences_cases nested_store nested_argument)
                  2%positive _ eq_refl eq_refl Hfit)).
Defined.

(** X13 on the nested example: four start positions, three
    sub-sequences. *)
Lemma getCpuStartPositions_length_nested :
  finer_boundaries nested_argument = Some 2%positive /\
  exists st',
    getCpuStartPositions nested_store nested_argument =
      Ok (Host, [0; 2; 4; 6], st') /\
    getNumSubSequences nested_store nested_argument = Ok (4 - 1).
Proof.
  split; [reflexivity |].
  assert (ICpuGpuVector_getSize
            {| cg_data := [0; 2; 4; 6]; cg_on_host := false;
               cg_on_device := true |} <= INT64_MAX) as Hfit
    by (change (4 <= INT64_MAX); unfold INT64_MAX; lia).
  destruct (getCpuStartPositions_length nested_store nested_argument
              2%positive _ eq_refl eq_refl Hfit) as (st' & H1 & H2 & _).
  exists st'. split; [exact H1 | exact H2].
Defined.

(** X14 on the nested example: two sequences in six rows. *)
Lemma getNumSequences_at_most_batch_nested :
  exists n b,
    getNumSequences nested_store nested_argument = Ok n /\
    getBatchSize nested_store nested_argument = Ok b /\
    n = 2 /\ 0 <= n <= b.
Proof.
  destruct (getNumSequences_at_most_batch nested_store nested_argument
              1%positive
              {| cg_data := [0; 4; 6]; cg_on_host := true;
                 cg_on_device := false |})
    as (n & b & H1 & H2 & H3 & H4).
  - reflexivity.
  - reflexivity.
  - repeat split; solve [exact I | eexists; reflexivity].
  - change (6 <= INT64_MAX). unfold INT64_MAX. lia.
  - repeat split; repeat constructor.
  - exists n, b. repeat split; assumption || lia.
Defined.

(** X15 on a copy of the nested example. *)
Lemma copies_share_storage_nested :
  exists st' v',
    getCpuStartPositions nested_store
      (copy_construct Argument_default nested_argument) =
      Ok (Host, [0; 2; 4; 6], st') /\
    finer_boundaries nested_argument = Some 2%positive /\
    cgvectors st' !! 2%positive = Some v' /\ cg_on_host v' = true.
Proof.
  destruct (proj2 (copies_share_storage nested_store Argument_default
                     Argument_default nested_argument)
              Host [0; 2; 4; 6] _ 2%positive eq_refl eq_refl)
    as (v' & H1 & H2 & _).
  eexists _, v'. split; [reflexivity |]. split; [reflexivity |].
  split; [exact H1 | exact H2].
Defined.

(** X16 on a descriptor that only has user-defined frame hints. *)
Lemma empty_descriptor_sizes_sample :
  getBatchSize sample_store (setFrameHeight 3 Argument_default) = Ok 0.
Proof.
  exact (proj1 (empty_descriptor_sizes sample_store
                  (setFrameHeight 3 Argument_default)
                  eq_refl eq_refl eq_refl eq_refl eq_refl eq_refl
                  eq_refl eq_refl)).
Defined.

(** ** sumCosts: further properties *)

Section MoreSumCosts.

Context {real : Type}.
Variable rzero : real.
Variable radd : real -> real -> real.
Variable Matrix_getSum : @Matrix real -> real.

Implicit Types (st : @Store real) (c : DeviceContext).

Lemma sumCosts_loop_app st (xs ys : list Argument) :
  forall (cost : real) c,
    sumCosts_loop radd Matrix_getSum st cost c (xs ++ ys) =
    r ← sumCosts_loop radd Matrix_getSum st cost c xs;
    sumCosts_loop radd Matrix_getSum st r.1 r.2 ys.
Proof.
  induction xs as [| x xs IH]; intros cost c; [reflexivity |].
  cbn [app sumCosts_loop]. destruct (value x) as [l |]; [| apply IH].
  cbn [SetDevice_enter]. unfold deref.
  destruct (matrices st !! l) as [m |]; [| reflexivity].
  cbn [mbind outcome_bind obind]. apply IH.
Qed.

Lemma sumCosts_loop_shift st (ys : list Argument) :
  (forall x y z, radd x (radd y z) = radd (radd x y) z) ->
  forall (u cost v : real) c c',
    sumCosts_loop radd Matrix_getSum st cost c ys = Ok (v, c') ->
    sumCosts_loop radd Matrix_getSum st (radd u cost) c ys =
    Ok (radd u v, c').
Proof.
  intros Hassoc. induction ys as [| y ys IH]; intros u cost v c c' H.
  - cbn in *. now injection H as <- <-.
  - cbn [sumCosts_loop] in *. destruct (value y) as [l |]; [| now apply IH].
    cbn [SetDevice_enter] in *. unfold deref in *.
    destruct (matrices st !! l) as [m |]; [| discriminate].
    cbn [mbind outcome_bind obind] in *.
    rewrite <- Hassoc. now apply IH.
Qed.

(** X17: the loop of [sumCosts] over two lists one after the other is
    the loop over the second list, started with the cost and the device
    context that the first one left.  When the addition of [real] is
    associative with 0 neutral on the right, the cost of a list is the sum
    of the costs of its two parts. *)
Theorem sumCosts_of_two_parts st c (xs ys : list Argument) :
  sumCosts rzero radd Matrix_getSum st c (xs ++ ys) =
    (r ← sumCosts rzero radd Matrix_getSum st c xs;
     sumCosts_loop radd Matrix_getSum st r.1 r.2 ys) /\
  ((forall x y z, radd x (radd y z) = radd (radd x y) z) ->
   (forall x, radd x rzero = x) ->
   forall vx c1 vy c2,
     sumCosts rzero radd Matrix_getSum st c xs = Ok (vx, c1) ->
     sumCosts rzero radd Matrix_getSum st c1 ys = Ok (vy, c2) ->
     sumCosts rzero radd Matrix_getSum st c (xs ++ ys) =
       Ok (radd vx vy, c2)).
Proof.
  split; [apply sumCosts_loop_app |].
  intros Hassoc Hzero vx c1 vy c2 Hx Hy. unfold sumCosts in *.
  rewrite sumCosts_loop_app, Hx. cbn [mbind outcome_bind obind fst snd].
  rewrite <- (Hzero vx) at 1.
  now apply sumCosts_loop_shift.
Qed.

(** X18: [sumCosts] looks at the [value] and the [deviceId] of a
    descriptor and at nothing else: two lists that agree on these cost
    the same.  So the cost of a list of copies, which is what passing the
    list by value makes, is the cost of the list, and a descriptor
    without value leaves cost and device context as they are. *)
Theorem sumCosts_reads_value_and_device st c (xs ys : list Argument)
  (raw : Argument) :
  (Forall2 (fun x y => value x = value y /\ deviceId x = deviceId y) xs ys ->
   sumCosts rzero radd Matrix_getSum st c xs =
   sumCosts rzero radd Matrix_getSum st c ys) /\
  sumCosts rzero radd Matrix_getSum st c (map (copy_construct raw) xs) =
    sumCosts rzero radd Matrix_getSum st c xs /\
  (Forall (fun x => value x = None) xs ->
   sumCosts rzero radd Matrix_getSum st c xs = Ok (rzero, c)).
Proof.
  assert (forall xs ys,
            Forall2 (fun x y => value x = value y /\ deviceId x = deviceId y)
                    xs ys ->
            forall cost c,
              sumCosts_loop radd Matrix_getSum st cost c xs =
              sumCosts_loop radd Matrix_getSum st cost c ys) as Hagree.
  { clear. intros xs ys H.
    induction H as [| x y xs ys [Hv Hd] _ IH]; intros cost c; [reflexivity |].
    cbn [sumCosts_loop]. rewrite Hv, Hd.
    destruct (value y) as [l |]; [| apply IH].
    cbn [SetDevice_enter]. unfold deref.
    destruct (matrices st !! l); [| reflexivity].
    cbn [mbind outcome_bind obind]. apply IH. }
  split; [intros H; now apply Hagree |]. split.
  - apply Hagree. clear. induction xs as [| x xs IH]; [constructor |].
    cbn [map]. constructor; [split; reflexivity | exact IH].
  - unfold sumCosts. intros Hnone. generalize rzero.
    induction Hnone as [| x xs Hx _ IH]; intros r; [reflexivity |].
    cbn [sumCosts_loop]. rewrite Hx. apply IH.
Qed.

End MoreSumCosts.

(** X17 on the example store, over the integers. *)
Lemma sumCosts_of_two_parts_sample :
  let c := {| active_device := 7; issued := [] |} in
  (forall x y z : Z, x + (y + z) = x + y + z) /\
  (forall x : Z, x + 0 = x) /\
  sumCosts 0 Z.add sample_getSum sample_store c ([sample_a] ++ [sample_b]) =
    Ok (12 + 15,
        {| active_device := 7;
           issued := [(1%positive, 0); (2%positive, 1)] |}).
Proof.
  cbv zeta. split; [intros; lia |]. split; [intros; lia |].
  refine (proj2 (sumCosts_of_two_parts 0 Z.add sample_getSum sample_store
                   {| active_device := 7; issued := [] |}
                   [sample_a] [sample_b])
            _ _ 12 {| active_device := 7; issued := [(1%positive, 0)] |}
            15 _ eq_refl eq_refl).
  - intros; lia.
  - intros; lia.
Defined.

(** X18 on the example list and the list with its counters changed. *)
Lemma sumCosts_reads_value_and_device_sample :
  let c := {| active_device := 7; issued := [] |} in
  Forall2 (fun x y => value x = value y /\ deviceId x = deviceId y)
          [notifyGradReady sample_a; sample_b] [sample_a; sample_b] /\
  sumCosts 0 Z.add sample_getSum sample_store c
           [notifyGradReady sample_a; sample_b] =
  sumCosts 0 Z.add sample_getSum sample_store c [sample_a; sample_b].
Proof.
  cbv zeta.
  assert (Forall2 (fun x y => value x = value y /\ deviceId x = deviceId y)
                  [notifyGradReady sample_a; sample_b] [sample_a; sample_b])
    as H by (repeat constructor).
  split; [exact H |].
  exact (proj1 (sumCosts_reads_value_and_device 0 Z.add sample_getSum
                  sample_store {| active_device := 7; issued := [] |}
                  _ _ Argument_default) H).
Defined.

(** ** The producer between its wait and its reset *)

Lemma grad_run_app (s1 s2 : list grad_event) : forall s : grad_system,
  grad_run (s1 ++ s2) s = grad_run s1 s ≫= grad_run s2.
Proof.
  induction s1 as [| e s1 IH]; intros s; [reflexivity |].
  cbn [app grad_run]. destruct (grad_step e s) as [s' |]; [apply IH |].
  reflexivity.
Qed.

Lemma grad_run_contributions (k : nat) : forall s : grad_system,
  grad_run (replicate k Contribute) s =
  Some {| accumulator := notifyGradReady_times k (accumulator s);
          the_producer := the_producer s |}.
Proof.
  induction k as [| k IH]; intros s; [now destruct s |].
  cbn [replicate grad_run grad_step notifyGradReady_times].
  now rewrite IH.
Qed.

(** X19: [waitGradReady] puts [gradCount] back to 0 after the wait has
    returned and released the lock.  A contribution that arrives between
    the two is lost: the producer returns with [gradCount = 0], as if
    the contribution had not been made, whereas the same contribution
    made after the producer has returned is counted. *)
Theorem contribution_between_wait_and_reset (a : Argument) (k : nat) :
  Z.of_nat k < INT_MAX ->
  allCount a = Z.of_nat k ->
  gradCount a = 0 ->
  let start := {| accumulator := a; the_producer := AtGradWait |} in
  grad_run (replicate k Contribute ++ [Produce; Contribute; Produce]) start =
    Some {| accumulator := a; the_producer := GradReturned |} /\
  grad_run (replicate k Contribute ++ [Produce; Produce; Contribute]) start =
    Some {| accumulator := notifyGradReady a;
            the_producer := GradReturned |} /\
  gradCount (notifyGradReady a) = 1.
Proof.
  intros Hk Hall Hg start. subst start.
  assert (set_gradCount 0 a = a) as Hzero
    by (rewrite <- Hg; apply set_gradCount_same).
  assert (LockedCondition_wait gradReady (set_gradCount (Z.of_nat k) a) =
          Ok (set_gradCount (Z.of_nat k) a)) as Hready.
  { unfold LockedCondition_wait, gradReady.
    cbn [gradCount allCount set_gradCount]. now rewrite Hall, Z.eqb_refl. }
  rewrite !grad_run_app, grad_run_contributions.
  cbn [accumulator the_producer mbind option_bind].
  rewrite notifyGradReady_times_count by lia. rewrite Hg, Z.add_0_l.
  cbn [grad_run grad_step accumulator the_producer]. rewrite Hready.
  cbn [accumulator the_producer].
  split; [| split].
  - rewrite notifyGradReady_increments
      by (cbn [gradCount set_gradCount]; unfold in_int, INT_MAX in *; lia).
    now rewrite !set_gradCount_twice, Hzero.
  - now rewrite set_gradCount_twice, Hzero.
  - unfold notifyGradReady, LockedCondition_notify_all.
    cbn [gradCount set_gradCount]. now rewrite Hg.
Qed.

(** X19 for two contributors. *)
Lemma contribution_between_wait_and_reset_two :
  let a := set_allCount 2 Argument_default in
  Z.of_nat 2 < INT_MAX /\ allCount a = Z.of_nat 2 /\ gradCount a = 0 /\
  grad_run [Contribute; Contribute; Produce; Contribute; Produce]
           {| accumulator := a; the_producer := AtGradWait |} =
    Some {| accumulator := a; the_producer := GradReturned |}.
Proof.
  cbv zeta.
  assert (Z.of_nat 2 < INT_MAX) as Hk by (unfold INT_MAX; lia).
  split; [exact Hk |]. split; [reflexivity |]. split; [reflexivity |].
  exact (proj1 (contribution_between_wait_and_reset
                  (set_allCount 2 Argument_default) 2 Hk eq_refl eq_refl)).
Defined.

(** ** A notify that overtakes the decrements *)

(** X20: [notifyValueReady] sets the counter to [allCount] whatever
    decrements are still to come.  When the producer notifies the next
    pass after the [k] consumers of this pass have passed the wait and
    before they have decremented, their decrements use up the units of
    the next pass: they all return, the counter is 0, and a consumer of
    the next pass is suspended although its notify has been made. *)
Theorem notify_overtaking_decrements (a : Argument) (k : nat) :
  1 <= Z.of_nat k <= INT_MAX ->
  allCount a = Z.of_nat k ->
  let a0 := notifyValueReady a in
  exists s1 s2,
    run (seq 0 k) (consumers a0 k) = Some s1 /\
    run (seq 0 k) (notify_step s1) = Some s2 /\
    all_returned s2 /\ valueCount (shared s2) = 0 /\
    thread_step k (arrive s2) = None.
Proof.
  intros Hk Hall a0.
  assert (valueCount a0 = Z.of_nat k) as Hv by exact Hall.
  assert (in_int (Z.of_nat k)) as Hin
    by (unfold in_int, INT_MAX in *; lia).
  pose proof (run_wake_phase k [] a0) as Hw.
  cbn [length app] in Hw.
  pose proof (run_decrement_phase k [] (notifyValueReady a0)) as Hd.
  cbn [length app] in Hd.
  assert (valueCount (notifyValueReady a0) = Z.of_nat k) as Hv' by exact Hall.
  rewrite Hv' in Hd.
  eexists _, _. split; [apply Hw; lia |].
  split.
  { unfold notify_step. cbn [shared waiters]. apply Hd; [exact Hin |].
    rewrite Z.sub_diag. unfold in_int, INT_MAX. lia. }
  split.
  { unfold all_returned. cbn [waiters]. clear.
    induction k as [| k IH]; constructor; [reflexivity | exact IH]. }
  split; [cbn [shared valueCount set_valueCount]; lia |].
  pose proof (late_consumer
    {| shared := set_valueCount (Z.of_nat k - Z.of_nat k)
                   (notifyValueReady a0);
       waiters := replicate k Returned |}) as Hlate.
  cbn [shared waiters valueCount set_valueCount allCount] in Hlate.
  rewrite length_replicate in Hlate.
  apply Hlate; [lia |].
  change (allCount a <> 0). lia.
Qed.

(** X20 for two consumers. *)
Lemma notify_overtaking_decrements_two :
  let a := set_allCount 2 Argument_default in
  1 <= Z.of_nat 2 <= INT_MAX /\ allCount a = Z.of_nat 2 /\
  exists s1 s2,
    run [0; 1]%nat (consumers (notifyValueReady a) 2) = Some s1 /\
    run [0; 1]%nat (notify_step s1) = Some s2 /\
    valueCount (shared s2) = 0.
Proof.
  cbv zeta.
  assert (1 <= Z.of_nat 2 <= INT_MAX) as Hk by (unfold INT_MAX; lia).
  split; [exact Hk |]. split; [reflexivity |].
  destruct (notify_overtaking_decrements (set_allCount 2 Argument_default)
              2 Hk eq_refl) as (s1 & s2 & H1 & H2 & _ & H3 & _).
  exists s1, s2. split; [exact H1 |]. split; [exact H2 | exact H3].
Defined.
